(** * svg-path-commander: the transform engine and the path pipeline

    A shallow embedding of [src/process/transformPath.ts] together with the
    collaborators it calls.  Only [transformPath] itself is present in the
    sources; [pathToAbsolute], [normalizePath], [segmentToCubic], [fixArc],
    [getSVGMatrix], [projection2d], [paramsParser] and [defaultOptions] are
    known by their declarations only, and [CSSMatrix] is an external package.
    They enter the development as the fields of the class [Collaborators];
    what a theorem needs to know about them is a hypothesis of that theorem. *)

From Stdlib Require Import ZArith QArith Lia Ascii.
From stdpp Require Import base tactics option list strings gmap.

Set Default Proof Using "Type".
Open Scope Z_scope.
Open Scope nat_scope.

(** ** JavaScript numbers

    [transformPath] never does arithmetic of its own: it converts array slots
    to numbers ([+v]), tests a number for truthiness ([a || b]) and compares
    numbers with [===] / [!==].  The carrier stays abstract, so nothing below
    depends on how floating point rounds. *)

Class JsNumber := {
  num : Type;
  zero : num;                      (* the literal 0 *)
  NaN : num;                       (* +undefined, +'M' *)
  strict_eq : num -> num -> bool;  (* a === b; a !== b is its negation *)
  truthy : num -> bool;            (* ToBoolean(a): false on 0, -0 and NaN *)
  add : num -> num -> num;
  sub : num -> num -> num;
  mul : num -> num -> num;
  two : num;
  two_thirds : num;
  of_literal : string -> num;      (* +'1.5e3': the number a numeral denotes *)
}.

(** ** Segments and paths *)

Section Model.
Context `{JsNumber}.

(** A segment is the JS array [[command, ...values]]. *)
Record segment := Segment { command : string; values : list num }.

(** [segment.length] *)
Definition seg_length (seg : segment) : Z := 1 + Z.of_nat (length (values seg)).

(** [+segment[k]]: slot 0 holds the command letter and every slot outside the
    array is [undefined]; unary plus turns both into NaN. *)
Definition seg_num (seg : segment) (k : Z) : num :=
  if (k <=? 0)%Z then NaN else nth (Z.to_nat (k - 1)) (values seg) NaN.

(** [a || b] on numbers *)
Definition js_or (a b : num) : num := if truthy a then a else b.

Definition PathArray := list segment.

(** The command letters of the absolute form. *)
Definition is_absolute (cmd : string) : bool :=
  bool_decide (cmd ∈ ["M"; "L"; "H"; "V"; "C"; "S"; "Q"; "T"; "A"; "Z"]).

(** A JS array whose slots may be [undefined]: what [absolutePath] and
    [normalizedPath] are while the loop assigns and splices them. *)
Definition js_get {A} (l : list (option A)) (i : nat) : option A := mjoin (l !! i).

(** [l[i] = v]: in range it overwrites, past the end it extends the array,
    leaving the slots in between empty. *)
Definition js_set {A} (l : list (option A)) (i : nat) (v : A) : list (option A) :=
  if decide (i < length l) then <[i := Some v]> l
  else l ++ replicate (i - length l) None ++ [Some v].

(** ** What the call can end in *)

Inductive error :=
  | InvalidMatrixInstance        (* new Error('invalid matrix instance') *)
  | TypeError.                   (* reading a property of undefined; also what the
                                    parser and the CSSMatrix constructor throw on
                                    a string they cannot read *)

Inductive outcome (A : Type) :=
  | Returned (a : A)
  | Thrown (e : error)
  | OutOfFuel.
Global Arguments Returned {A} a.
Global Arguments Thrown {A} e.
Global Arguments OutOfFuel {A}.

Global Instance outcome_ret : MRet outcome := fun _ a => Returned a.
Global Instance outcome_bind : MBind outcome := fun _ _ f m =>
  match m with
  | Returned a => f a
  | Thrown e => Thrown e
  | OutOfFuel => OutOfFuel
  end.

(** [v.prop] where [v] may be [undefined] *)
Definition defined {A} (o : option A) : outcome A :=
  match o with Some a => Returned a | None => Thrown TypeError end.

(** [throws_invalid_matrix r]: the call ended in the 'invalid matrix
    instance' error. *)
Definition throws_invalid_matrix {A} (r : outcome A) : bool :=
  match r with Thrown InvalidMatrixInstance => true | _ => false end.

(** ** Transform descriptors *)

Inductive transformValue := TNumber (n : num) | TArray (ns : list num).

(** [Partial<TransformObject>]: every field may be missing. *)
Record TransformObject := {
  translate : option transformValue;
  rotate : option transformValue;
  skew : option transformValue;
  scale : option transformValue;
  origin : option (num * num * num) }.

Definition key_of {A} (k : string) (field : option A) : list string :=
  match field with Some _ => [k] | None => [] end.

(** [Object.keys(transform)] *)
Definition Object_keys (t : TransformObject) : list string :=
  key_of "translate" (translate t) ++ key_of "rotate" (rotate t) ++
  key_of "skew" (skew t) ++ key_of "scale" (scale t) ++ key_of "origin" (origin t).

(** [Object.assign(transform, { origin: o })] *)
Definition assign_origin (t : TransformObject) (o : num * num * num) : TransformObject :=
  {| translate := translate t; rotate := rotate t; skew := skew t;
     scale := scale t; origin := Some o |}.

(** Modelled from the spec: the [origin] entry of [defaultOptions]
    (src/options/options is only declared in the sources): "origin:[x,y,z]
    default [0,0,0]". *)
Definition defaultOptions_origin : num * num * num := (zero, zero, zero).

(** The path argument: [string | PathArray]. *)
Inductive pathInput := PathString (d : string) | PathSegments (p : PathArray).

(** ** Collaborators *)

(** [parserParams]: [transformPath] reads and writes [x1 y1 x2 y2]; the
    remaining fields are only ever touched by [segmentToCubic]. *)
Record parserParams {R : Type} := {
  x1 : num; y1 : num; x2 : num; y2 : num; others : R }.
Global Arguments parserParams R : clear implicits.

Class Collaborators := {
  CSSMatrix : Type;
  (** [new CSSMatrix()] *)
  CSSMatrix_new : CSSMatrix;
  (** [new CSSMatrix(s)]; [None] when the constructor throws *)
  CSSMatrix_fromString : string -> option CSSMatrix;
  isIdentity : CSSMatrix -> bool;
  paramsRest : Type;
  paramsParser : parserParams paramsRest;
  (** [None] when the path string does not parse *)
  pathToAbsolute : pathInput -> option PathArray;
  normalizePath : PathArray -> PathArray;
  (** [params] is passed by reference: the call returns it as it leaves it *)
  segmentToCubic : segment -> parserParams paramsRest -> segment * parserParams paramsRest;
  (** [fixArc(path, allPathCommands, i)] mutates both arrays *)
  fixArc : list (option segment) -> list (option string) -> nat ->
           list (option segment) * list (option string);
  getSVGMatrix : TransformObject -> CSSMatrix;
  projection2d : CSSMatrix -> num * num -> num * num * num -> num * num;
}.

Context `{Collaborators}.

Inductive transformArg :=
  | TrString (s : string)
  | TrMatrix (m : CSSMatrix)
  | TrObject (t : TransformObject).

(** ** transformPath, lines 39-63: choosing the matrix and the origin *)

(** [Some (matrixInstance, origin)] when control reaches line 61, [None] for
    the early [return [...absolutePath]] of line 50.  [matrixInstance] is kept
    as a value that may be falsy, which is what line 61 tests. *)
Definition select_matrix (transform : option transformArg)
  : outcome (option (option CSSMatrix * (num * num * num))) :=
  let matrixInstance := Some CSSMatrix_new in
  let origin0 := (zero, zero, zero) in
  match transform with
  | Some (TrString s) =>
      match CSSMatrix_fromString s with
      | Some m => Returned (Some (Some m, origin0))
      | None => Thrown TypeError
      end
  | Some (TrMatrix m) => Returned (Some (Some m, origin0))
  | None => Returned None
  | Some (TrObject t) =>
      if decide (length (Object_keys t) = 0) then Returned None
      else
        let t' := match origin t with
                  | None => assign_origin t defaultOptions_origin
                  | Some _ => t
                  end in
        let matrixInstance := Some (getSVGMatrix t') in
        let origin1 := default (zero, zero, zero) (origin t') in
        Returned (Some (matrixInstance, origin1))
  end.

(** At line 61 [matrixInstance] holds a matrix. *)
Definition matrix_assigned {A B} (r : outcome (option (option A * B))) : bool :=
  match r with Returned (Some (None, _)) => false | _ => true end.

(** [denotes_identity transform]: the argument is absent, an empty
    descriptor, or yields a matrix whose [isIdentity] flag is set. *)
Definition denotes_identity (transform : option transformArg) : bool :=
  match select_matrix transform with
  | Returned None => true
  | Returned (Some (Some m, _)) => isIdentity m
  | _ => false
  end.

(** The descriptor [{ origin: o }]. *)
Definition origin_only (o : num * num * num) : TransformObject :=
  {| translate := None; rotate := None; skew := None; scale := None; origin := Some o |}.

(** ** transformPath, lines 72-113: the loop over [absolutePath] *)

(** One entry of [transformedPath] *)
Record PathTransform := { s : segment; c : string; x : num; y : num }.

Record loop_state := LoopState {
  absolutePath : list (option segment);
  normalizedPath : list (option segment);
  allPathCommands : list (option string);
  params : parserParams paramsRest;
  pathCommand : string;
  transformedPath : list PathTransform;
  ii : nat }.

Definition set_xy (p : parserParams paramsRest) (seg : segment) : parserParams paramsRest :=
  let seglen := seg_length seg in
  let px1 := seg_num seg (seglen - 2) in
  let py1 := seg_num seg (seglen - 1) in
  {| x1 := px1; y1 := py1;
     x2 := js_or (seg_num seg (seglen - 4)) px1;
     y2 := js_or (seg_num seg (seglen - 3)) py1;
     others := others p |}.

(** The body of the [for] loop at index [i]. *)
Definition loop_body (i : nat) (st : loop_state) : outcome loop_state :=
  (* lines 74-83 *)
  let cmd :=
    match js_get (absolutePath st) i with
    | Some seg => command seg
    | None => pathCommand st
    end in
  let cmds := js_set (allPathCommands st) i cmd in
  (* lines 85-94 *)
  st1 ← (if decide (cmd = "A") then
           n ← defined (js_get (normalizedPath st) i);
           let '(_, p1) := segmentToCubic n (params st) in
           let '(a, p2) := segmentToCubic n p1 in
           let '(abs', cmds1) := fixArc (js_set (absolutePath st) i a) cmds i in
           let '(b, p3) := segmentToCubic n p2 in
           let '(norm', cmds2) := fixArc (js_set (normalizedPath st) i b) cmds1 i in
           Returned (LoopState abs' norm' cmds2 p3 cmd (transformedPath st)
                       (length abs' `max` length norm'))
         else
           Returned (LoopState (absolutePath st) (normalizedPath st) cmds (params st)
                       cmd (transformedPath st) (ii st)));
  (* lines 97-112 *)
  seg ← defined (js_get (normalizedPath st1) i);
  let p := set_xy (params st1) seg in
  a ← defined (js_get (absolutePath st1) i);
  let result := {| s := a; c := command a; x := x1 p; y := y1 p |} in
  Returned (LoopState (absolutePath st1) (normalizedPath st1) (allPathCommands st1) p
              (pathCommand st1) (transformedPath st1 ++ [result]) (ii st1)).

(** [for (i = i0; i < ii; i += 1) body]; [ii] is re-read at every test. *)
Fixpoint loop (fuel : nat) (i : nat) (st : loop_state) : outcome loop_state :=
  if decide (i < ii st) then
    match fuel with
    | O => OutOfFuel
    | S fuel' => st' ← loop_body i st; loop fuel' (S i) st'
    end
  else Returned st.

Definition loop_init (absolutePath normalizedPath : PathArray) : loop_state :=
  LoopState (Some <$> absolutePath) (Some <$> normalizedPath) [] paramsParser ""
            [] (length absolutePath).

(** Both arrays are dense, of one length, and [ii] is that length. *)
Definition aligned (st : loop_state) : Prop :=
  exists la ln : list segment,
    absolutePath st = Some <$> la /\ normalizedPath st = Some <$> ln /\
    length la = length ln /\ ii st = length la.

(** The arc segments among the slots of an array. *)
Fixpoint count_arcs (l : list (option segment)) : nat :=
  match l with
  | [] => 0
  | Some seg :: l' => (if decide (command seg = "A") then 1 else 0) + count_arcs l'
  | None :: l' => count_arcs l'
  end.

(** ** transformPath, lines 115-144: projecting every entry *)

(** The [for (j = 1; j < jj; j += 2)] loop over the values of one segment;
    it returns the rewritten values and the last projected point. *)
Fixpoint project_values (m : CSSMatrix) (o : num * num * num)
    (vs : list num) (xy : num * num) : list num * (num * num) :=
  match vs with
  | [] => ([], xy)
  | [a] =>
      (* segment[j + 1] is undefined; writing it back extends the array *)
      let '(px, py) := projection2d m (a, NaN) o in ([px; py], (px, py))
  | a :: b :: rest =>
      let '(px, py) := projection2d m (a, b) o in
      let '(rest', xy') := project_values m o rest (px, py) in
      (px :: py :: rest', xy')
  end.

Definition is_line_command (cmd : string) : bool :=
  bool_decide (cmd = "L") || bool_decide (cmd = "H") || bool_decide (cmd = "V").

(** The callback of [transformedPath.map]; [(x, y)] are the closure
    variables of the same names. *)
Definition project_entry (m : CSSMatrix) (o : num * num * num)
    (xy : num * num) (seg : PathTransform) : segment * (num * num) :=
  if is_line_command (c seg) then
    let '(lx, ly) := projection2d m (x seg, y seg) o in
    let segment :=
      if negb (strict_eq (fst xy) lx) && negb (strict_eq (snd xy) ly)
      then Segment "L" [lx; ly]
      else if strict_eq (snd xy) ly then Segment "H" [lx]
      else if strict_eq (fst xy) lx then Segment "V" [ly]
      else s seg in
    (segment, (lx, ly))
  else
    let '(vs, xy') := project_values m o (values (s seg)) xy in
    (Segment (command (s seg)) vs, xy').

Fixpoint project_all (m : CSSMatrix) (o : num * num * num)
    (xy : num * num) (tp : list PathTransform) : PathArray :=
  match tp with
  | [] => []
  | seg :: rest =>
      let '(out, xy') := project_entry m o xy seg in
      out :: project_all m o xy' rest
  end.

(** The pair the loop of lines 136-140 projects last: the last two values,
    or the last value and [undefined] when their number is odd. *)
Fixpoint last_pair (vs : list num) : option (num * num) :=
  match vs with
  | [] => None
  | [a] => Some (a, NaN)
  | a :: b :: rest =>
      match last_pair rest with
      | Some ab => Some ab
      | None => Some (a, b)
      end
  end.

(** The closure variables [(x, y)] after the callback has visited [e]:
    line 131 sets them to the projected end point of a line entry, line 137
    to each projected pair of another entry in turn; an entry without values
    leaves them as they are. *)
Definition point_after (m : CSSMatrix) (o : num * num * num)
    (xy : num * num) (e : PathTransform) : num * num :=
  if is_line_command (c e) then projection2d m (x e, y e) o
  else match last_pair (values (s e)) with
       | Some ab => projection2d m ab o
       | None => xy
       end.

(** The closure variables [(x, y)] when the callback reaches entry [k]:
    the point the code classifies a line against.  A close does not move
    it, so after a close it is not the current point of the path. *)
Fixpoint running_point (m : CSSMatrix) (o : num * num * num)
    (xy : num * num) (tp : list PathTransform) (k : nat) : num * num :=
  match k, tp with
  | S k', e :: rest => running_point m o (point_after m o xy e) rest k'
  | _, _ => xy
  end.

(** ** What the theorems speak of *)


(** Every slot of the array satisfies [P]. *)
Definition slots_ok (P : string -> Prop) (l : list (option segment)) : Prop :=
  forall seg, Some seg ∈ l -> P (command seg).

(** Every entry pairs a segment with its own command, which satisfies [P]
    and is not an arc. *)
Definition entries_ok (P : string -> Prop) (tp : list PathTransform) : Prop :=
  Forall (fun e => c e = command (s e) /\ P (c e) /\ c e <> "A") tp.

(** ** transformPath *)

Definition transformPath (fuel : nat) (path : pathInput)
    (transform : option transformArg) : outcome PathArray :=
  match pathToAbsolute path with
  | None => Thrown TypeError
  | Some absolutePath =>
      let normalizedPath := normalizePath absolutePath in
      sel ← select_matrix transform;
      match sel with
      | None => Returned absolutePath
      | Some (None, _) => Thrown InvalidMatrixInstance
      | Some (Some matrixInstance, origin) =>
          if isIdentity matrixInstance then Returned absolutePath
          else
            st ← loop fuel 0 (loop_init absolutePath normalizedPath);
            Returned (project_all matrixInstance origin (zero, zero) (transformedPath st))
      end
  end.

End Model.

(** * transformPath over a store

    The arrays of the source are objects: [absolutePath[i] = ...], [fixArc]
    and [segment[j] = x] write into them in place.  To say what a call does
    to the arrays of its caller, this part runs the same code over a store
    that keeps every path array and every segment array at a location. *)

Section Store.
Context `{JsNumber} `{!Collaborators}.

Definition loc := positive.

(** Path arrays hold references to segment arrays. *)
Record store := Store {
  arrays : gmap loc (list (option loc));
  segs : gmap loc segment }.

(** A computation on the store that may throw. *)
Definition St (A : Type) : Type := store -> outcome A * store.

Definition st_ret {A} (a : A) : St A := fun h => (Returned a, h).
Definition st_bind {A B} (m : St A) (f : A -> St B) : St B := fun h =>
  match m h with
  | (Returned a, h') => f a h'
  | (Thrown e, h') => (Thrown e, h')
  | (OutOfFuel, h') => (OutOfFuel, h')
  end.
Definition st_lift {A} (r : outcome A) : St A := fun h => (r, h).

Notation "x <- m ;; k" := (st_bind m (fun x => k))
  (at level 100, m at next level, right associativity).
Notation "m ;;; k" := (st_bind m (fun _ => k))
  (at level 100, right associativity).

Definition read_array (q : loc) : St (list (option loc)) := fun h =>
  (defined (arrays h !! q), h).
Definition read_segment (l : loc) : St segment := fun h =>
  (defined (segs h !! l), h).
Definition write_array (q : loc) (slots : list (option loc)) : St unit := fun h =>
  (Returned tt, Store (<[q := slots]> (arrays h)) (segs h)).
Definition write_segment (l : loc) (seg : segment) : St unit := fun h =>
  (Returned tt, Store (arrays h) (<[l := seg]> (segs h))).
(** An array literal: a new object. *)
Definition new_array (slots : list (option loc)) : St loc := fun h =>
  let q := fresh (dom (arrays h)) in
  (Returned q, Store (<[q := slots]> (arrays h)) (segs h)).
Definition new_segment (seg : segment) : St loc := fun h =>
  let l := fresh (dom (segs h)) in
  (Returned l, Store (arrays h) (<[l := seg]> (segs h))).

(** The collaborators that take and return arrays, acting on the store. *)
Class StoreCollaborators := {
  (** [None] when the path does not parse *)
  pathToAbsolute_st : loc -> St (option loc);
  normalizePath_st : loc -> St loc;
  segmentToCubic_st : loc -> parserParams paramsRest -> St (loc * parserParams paramsRest);
  fixArc_st : loc -> list (option string) -> nat -> St (list (option string));
}.
Context `{StoreCollaborators}.

(** One entry of [transformedPath]: [s] is a reference. *)
Record entry_st := { s_ref : loc; c_st : string; x_st : num; y_st : num }.

Record loop_state_st := LoopStateSt {
  absolutePath_ref : loc;
  normalizedPath_ref : loc;
  allPathCommands_st : list (option string);
  params_st : parserParams paramsRest;
  pathCommand_st : string;
  transformedPath_st : list entry_st;
  ii_st : nat }.

(** Lines 74-112 *)
Definition loop_body_st (i : nat) (st : loop_state_st) : St loop_state_st :=
  let abs := absolutePath_ref st in
  let norm := normalizedPath_ref st in
  slots <- read_array abs;;
  cmd <- match js_get slots i with
         | Some l => seg <- read_segment l;; st_ret (command seg)
         | None => st_ret (pathCommand_st st)
         end;;
  let cmds := js_set (allPathCommands_st st) i cmd in
  st1 <- (if decide (cmd = "A") then
            nslots <- read_array norm;;
            n <- st_lift (defined (js_get nslots i));;
            r1 <- segmentToCubic_st n (params_st st);;
            r2 <- segmentToCubic_st n (snd r1);;
            slots <- read_array abs;;
            write_array abs (js_set slots i (fst r2));;;
            cmds1 <- fixArc_st abs cmds i;;
            r3 <- segmentToCubic_st n (snd r2);;
            nslots <- read_array norm;;
            write_array norm (js_set nslots i (fst r3));;;
            cmds2 <- fixArc_st norm cmds1 i;;
            slots <- read_array abs;;
            nslots <- read_array norm;;
            st_ret (LoopStateSt abs norm cmds2 (snd r3) cmd (transformedPath_st st)
                      (length slots `max` length nslots))
          else
            st_ret (LoopStateSt abs norm cmds (params_st st) cmd (transformedPath_st st)
                      (ii_st st)));;
  nslots <- read_array norm;;
  n <- st_lift (defined (js_get nslots i));;
  seg <- read_segment n;;
  let p := set_xy (params_st st1) seg in
  slots <- read_array abs;;
  a <- st_lift (defined (js_get slots i));;
  aseg <- read_segment a;;
  let result := {| s_ref := a; c_st := command aseg; x_st := x1 p; y_st := y1 p |} in
  st_ret (LoopStateSt abs norm (allPathCommands_st st1) p (pathCommand_st st1)
            (transformedPath_st st1 ++ [result]) (ii_st st1)).

Fixpoint loop_st (fuel : nat) (i : nat) (st : loop_state_st) : St loop_state_st :=
  if decide (i < ii_st st) then
    match fuel with
    | O => st_lift OutOfFuel
    | S fuel' => st' <- loop_body_st i st;; loop_st fuel' (S i) st'
    end
  else st_ret st.

(** Lines 116-143: the callback of [map]; it returns the reference it hands
    to the new array. *)
Definition project_entry_st (m : CSSMatrix) (o : num * num * num)
    (xy : num * num) (e : entry_st) : St (loc * (num * num)) :=
  if is_line_command (c_st e) then
    let '(lx, ly) := projection2d m (x_st e, y_st e) o in
    l <- (if negb (strict_eq (fst xy) lx) && negb (strict_eq (snd xy) ly)
          then new_segment (Segment "L" [lx; ly])
          else if strict_eq (snd xy) ly then new_segment (Segment "H" [lx])
          else if strict_eq (fst xy) lx then new_segment (Segment "V" [ly])
          else st_ret (s_ref e));;
    st_ret (l, (lx, ly))
  else
    seg <- read_segment (s_ref e);;
    let '(vs, xy') := project_values m o (values seg) xy in
    write_segment (s_ref e) (Segment (command seg) vs);;;
    st_ret (s_ref e, xy').

Fixpoint project_all_st (m : CSSMatrix) (o : num * num * num)
    (xy : num * num) (tp : list entry_st) : St (list (option loc)) :=
  match tp with
  | [] => st_ret []
  | e :: rest =>
      r <- project_entry_st m o xy e;;
      outs <- project_all_st m o (snd r) rest;;
      st_ret (Some (fst r) :: outs)
  end.

(** [transformPath] on a path array of the caller.  The descriptor is read
    as in [select_matrix]; that line 55 writes the default origin into the
    caller's descriptor does not concern the path. *)
Definition transformPath_st (fuel : nat) (path : loc)
    (transform : option transformArg) : St loc :=
  absolute <- pathToAbsolute_st path;;
  absolutePath <- st_lift (match absolute with
                           | Some q => Returned q
                           | None => Thrown TypeError
                           end);;
  normalizedPath <- normalizePath_st absolutePath;;
  sel <- st_lift (select_matrix transform);;
  match sel with
  | None => slots <- read_array absolutePath;; new_array slots
  | Some (None, _) => st_lift (Thrown InvalidMatrixInstance)
  | Some (Some matrixInstance, origin) =>
      if isIdentity matrixInstance then
        slots <- read_array absolutePath;; new_array slots
      else
        slots <- read_array absolutePath;;
        st <- loop_st fuel 0 (LoopStateSt absolutePath normalizedPath [] paramsParser ""
                                [] (length slots));;
        outs <- project_all_st matrixInstance origin (zero, zero) (transformedPath_st st);;
        new_array outs
  end.

End Store.

(** * The path pipeline, modelled from the specification

    Of the converters and of the scanner the sources hold declarations only.
    The definitions of this part follow sections 3, 4.1, 4.2 and 4.3 of the
    specification. *)

Section Pipeline.
Context `{JsNumber}.

(** ** Commands *)

Inductive kind := KM | KL | KH | KV | KC | KS | KQ | KT | KA | KZ.

Global Instance kind_eq_dec : EqDecision kind.
Proof. solve_decision. Defined.

(** The letter of a command; lower case is the relative form. *)
Definition letter (k : kind) (relative : bool) : string :=
  match k, relative with
  | KM, false => "M" | KM, true => "m"
  | KL, false => "L" | KL, true => "l"
  | KH, false => "H" | KH, true => "h"
  | KV, false => "V" | KV, true => "v"
  | KC, false => "C" | KC, true => "c"
  | KS, false => "S" | KS, true => "s"
  | KQ, false => "Q" | KQ, true => "q"
  | KT, false => "T" | KT, true => "t"
  | KA, false => "A" | KA, true => "a"
  | KZ, false => "Z" | KZ, true => "z"
  end.

Definition all_commands : list (kind * bool) :=
  k ← [KM; KL; KH; KV; KC; KS; KQ; KT; KA; KZ]; [(k, false); (k, true)].

Definition kind_of (cmd : string) : option (kind * bool) :=
  snd <$> list_find (fun kr => letter (fst kr) (snd kr) = cmd) all_commands.

(** Modelled from the spec: the table [paramsCount] (src/parser/paramsCount
    is only declared in the sources), "A=7, C=6, S/Q=4, L/M/T=2, H/V=1,
    Z=0". *)
Definition arity (k : kind) : nat :=
  match k with
  | KA => 7 | KC => 6 | KS | KQ => 4 | KL | KM | KT => 2 | KH | KV => 1 | KZ => 0
  end.

Definition paramsCount (cmd : string) : option nat := arity ∘ fst <$> kind_of cmd.

(** ** The forms of a segment

    "Form predicates (Absolute, Relative, Normalized, Curve-only): structural
    properties computable from a Path". *)

Definition is_relative (seg : segment) : bool :=
  match kind_of (command seg) with Some (_, true) => true | _ => false end.

Definition is_shorthand (seg : segment) : bool :=
  match kind_of (command seg), values seg with
  | Some (KH, false), [_] | Some (KV, false), [_]
  | Some (KS, false), [_; _; _; _] | Some (KT, false), [_; _] => true
  | _, _ => false
  end.

Definition is_convertible (seg : segment) : bool :=
  match kind_of (command seg), values seg with
  | Some (KL, false), [_; _] | Some (KQ, false), [_; _; _; _]
  | Some (KA, false), [_; _; _; _; _; _; _] => true
  | _, _ => false
  end.

Definition absolute_form (seg : segment) : Prop := is_relative seg = false.
Definition normal_form (seg : segment) : Prop :=
  is_relative seg = false /\ is_shorthand seg = false.
Definition curve_form (seg : segment) : Prop :=
  is_relative seg = false /\ is_shorthand seg = false /\ is_convertible seg = false.

(** ** ToAbsolute *)

(** The running point [(cx, cy)] and the start [(mx, my)] of the subpath. *)
Record cursor := { cx : num; cy : num; mx : num; my : num }.

Definition cursor0 : cursor := {| cx := zero; cy := zero; mx := zero; my := zero |}.

Fixpoint shift_pairs (dx dy : num) (vs : list num) : list num :=
  match vs with
  | a :: b :: rest => add a dx :: add b dy :: shift_pairs dx dy rest
  | [a] => [add a dx]
  | [] => []
  end.

(** "rewrites relative coordinates by adding the running point": of an arc
    only the end point is a coordinate pair. *)
Definition absolute_values (k : kind) (cur : cursor) (vs : list num) : list num :=
  match k with
  | KH => (fun v => add v (cx cur)) <$> vs
  | KV => (fun v => add v (cy cur)) <$> vs
  | KA => take 5 vs ++ shift_pairs (cx cur) (cy cur) (drop 5 vs)
  | _ => shift_pairs (cx cur) (cy cur) vs
  end.

Definition to_absolute_segment (cur : cursor) (seg : segment) : segment :=
  match kind_of (command seg) with
  | Some (k, true) => Segment (letter k false) (absolute_values k cur (values seg))
  | _ => seg
  end.

(** The last coordinate pair of a segment. *)
Definition end_point (seg : segment) : option (num * num) :=
  match reverse (values seg) with
  | b :: a :: _ => Some (a, b)
  | _ => None
  end.

(** The cursor after an absolute segment: "a Z resets the running point to
    the subpath start". *)
Definition advance (cur : cursor) (seg : segment) : cursor :=
  match kind_of (command seg), values seg with
  | Some (KM, _), [a; b] => {| cx := a; cy := b; mx := a; my := b |}
  | Some (KZ, _), _ => {| cx := mx cur; cy := my cur; mx := mx cur; my := my cur |}
  | Some (KH, _), [a] => {| cx := a; cy := cy cur; mx := mx cur; my := my cur |}
  | Some (KV, _), [b] => {| cx := cx cur; cy := b; mx := mx cur; my := my cur |}
  | _, _ =>
      match end_point seg with
      | Some (a, b) => {| cx := a; cy := b; mx := mx cur; my := my cur |}
      | None => cur
      end
  end.

Fixpoint to_absolute_from (cur : cursor) (p : PathArray) : PathArray :=
  match p with
  | [] => []
  | seg :: rest =>
      let seg' := to_absolute_segment cur seg in
      seg' :: to_absolute_from (advance cur seg') rest
  end.

(** Modelled from the spec: ToAbsolute of section 4.2 ([pathToAbsolute],
    src/convert/pathToAbsolute, is only declared in the sources). *)
Definition toAbsolute (p : PathArray) : PathArray := to_absolute_from cursor0 p.

(** ** Normalize *)

(** The cursor with the second control point of the previous cubic and the
    control point of the previous quadratic, when the previous command was
    one. *)
Record context := {
  at_point : cursor;
  cubic_ctrl : option (num * num);
  quad_ctrl : option (num * num) }.

Definition context0 : context :=
  {| at_point := cursor0; cubic_ctrl := None; quad_ctrl := None |}.

(** The reflection of [ctrl] through [p]. *)
Definition reflect (p ctrl : num * num) : num * num :=
  (sub (mul two (fst p)) (fst ctrl), sub (mul two (snd p)) (snd ctrl)).

(** "the reflection of the previous cubic's second control point through
    the current point (or the current point itself if the previous command
    was not a cubic)" *)
Definition implied_ctrl (cur : cursor) (previous : option (num * num)) : num * num :=
  match previous with
  | Some ctrl => reflect (cx cur, cy cur) ctrl
  | None => (cx cur, cy cur)
  end.

Definition expand_segment (ctx : context) (seg : segment) : segment :=
  let cur := at_point ctx in
  match kind_of (command seg), values seg with
  | Some (KH, false), [a] => Segment "L" [a; cy cur]
  | Some (KV, false), [b] => Segment "L" [cx cur; b]
  | Some (KS, false), [a2; b2; a; b] =>
      let '(a1, b1) := implied_ctrl cur (cubic_ctrl ctx) in
      Segment "C" [a1; b1; a2; b2; a; b]
  | Some (KT, false), [a; b] =>
      let '(qa, qb) := implied_ctrl cur (quad_ctrl ctx) in
      Segment "Q" [qa; qb; a; b]
  | _, _ => seg
  end.

Definition expand_advance (ctx : context) (seg : segment) : context :=
  {| at_point := advance (at_point ctx) seg;
     cubic_ctrl := match kind_of (command seg), values seg with
                   | Some (KC, false), [_; _; a2; b2; _; _] => Some (a2, b2)
                   | _, _ => None
                   end;
     quad_ctrl := match kind_of (command seg), values seg with
                  | Some (KQ, false), [qa; qb; _; _] => Some (qa, qb)
                  | _, _ => None
                  end |}.

Fixpoint expand_from (ctx : context) (p : PathArray) : PathArray :=
  match p with
  | [] => []
  | seg :: rest =>
      let seg' := expand_segment ctx seg in
      seg' :: expand_from (expand_advance ctx seg') rest
  end.

(** Modelled from the spec: Normalize of section 4.2 ([normalizePath],
    src/process/normalizePath, is only declared in the sources): it
    "composes ToAbsolute with shorthand expansion". *)
Definition normalize (p : PathArray) : PathArray := expand_from context0 (toAbsolute p).

(** ** The curve converter *)

(** [arcToCubic(X1, Y1, RX, RY, angle, LAF, SF, X2, Y2)] of section 4.4 is
    trigonometry on floating point numbers; it stays a parameter. *)
Class ArcConversion := {
  arcToCubic : num -> num -> num -> num -> num -> num -> num -> num -> num -> list num }.
Context `{ArcConversion}.

(** "Lines become degenerate cubics whose control points lie on the line
    (preserving exact linear parameterization)": the control points sit at
    one third and at two thirds of the line. *)
Definition lineToCubic (a1 b1 a2 b2 : num) : list num :=
  [add a2 (mul two_thirds (sub a1 a2)); add b2 (mul two_thirds (sub b1 b2));
   add a1 (mul two_thirds (sub a2 a1)); add b1 (mul two_thirds (sub b2 b1));
   a2; b2].

(** "control points start + 2/3·(ctrl−start) and end + 2/3·(ctrl−end)" *)
Definition quadToCubic (a1 b1 qa qb a2 b2 : num) : list num :=
  [add a1 (mul two_thirds (sub qa a1)); add b1 (mul two_thirds (sub qb b1));
   add a2 (mul two_thirds (sub qa a2)); add b2 (mul two_thirds (sub qb b2));
   a2; b2].

(** The cubic segments held by a run of numbers, six to a segment. *)
Fixpoint cubic_chunks (vs : list num) : list segment :=
  match vs with
  | [] => []
  | a1 :: b1 :: a2 :: b2 :: a :: b :: rest =>
      Segment "C" [a1; b1; a2; b2; a; b] :: cubic_chunks rest
  | short => [Segment "C" short]
  end.

Definition curve_segment (cur : cursor) (seg : segment) : list segment :=
  match kind_of (command seg), values seg with
  | Some (KL, false), [a; b] => [Segment "C" (lineToCubic (cx cur) (cy cur) a b)]
  | Some (KQ, false), [qa; qb; a; b] =>
      [Segment "C" (quadToCubic (cx cur) (cy cur) qa qb a b)]
  | Some (KA, false), [rx; ry; angle; laf; sf; a; b] =>
      cubic_chunks (arcToCubic (cx cur) (cy cur) rx ry angle laf sf a b)
  | _, _ => [seg]
  end.

Fixpoint curves_from (cur : cursor) (p : PathArray) : PathArray :=
  match p with
  | [] => []
  | seg :: rest => curve_segment cur seg ++ curves_from (advance cur seg) rest
  end.

Definition is_kind (k : kind) (seg : segment) : bool :=
  match kind_of (command seg) with
  | Some (k', _) => bool_decide (k' = k)
  | None => false
  end.

(** The start of the last subpath: the point of the last moveto. *)
Definition subpath_start (p : PathArray) : option (num * num) :=
  match filter (fun seg => is_kind KM seg = true) (reverse p) with
  | seg :: _ => end_point seg
  | [] => None
  end.

Definition coincide (p q : option (num * num)) : bool :=
  match p, q with
  | Some (a, b), Some (a', b') => strict_eq a a' && strict_eq b b'
  | _, _ => false
  end.

(** "A trailing close segment is dropped when redundant — i.e., when the
    preceding segment's own endpoint already coincides with the subpath start
    and the subpath contains other segments." *)
Definition drop_redundant_close (p : PathArray) : PathArray :=
  match reverse p with
  | close :: previous :: before =>
      if is_kind KZ close && negb (is_kind KZ previous) && negb (is_kind KM previous) &&
         coincide (end_point previous) (subpath_start (reverse (previous :: before)))
      then reverse (previous :: before)
      else p
  | _ => p
  end.

(** Modelled from the spec: the curve converter of section 4.3
    ([pathToCurve], src/convert/pathToCurve, is only declared in the
    sources): it "reduces a Normalized sequence to {M, C, Z}" and drops a
    redundant trailing close segment. *)
Definition toCurve (p : PathArray) : PathArray :=
  drop_redundant_close (curves_from cursor0 (normalize p)).

End Pipeline.

(** The shapes of a list of values, up to eight of them *)
Ltac shape vs := destruct vs as [|? [|? [|? [|? [|? [|? [|? [|? ?]]]]]]]].

(** * The grammar scanner, modelled from the specification

    The scanner is declared in the sources ([PathParser], [skipSpaces],
    [scanFlag], [scanParam], [scanSegment], [finalizeSegment],
    [parsePathString]) and described in section 4.1 of the specification; its
    code is not among the sources. *)

Section Scanner.
Context `{JsNumber}.

(** The parser state, with the fields [PathParser] declares ([max] is the
    length of [pathValue]); [err] is empty while no error was met. *)
Record PathParser := {
  segments : PathArray;
  pathValue : list ascii;
  index : nat;
  param : num;
  segmentStart : nat;
  data : list num;
  err : string }.

Definition max (path : PathParser) : nat := length (pathValue path).

Definition set_index (path : PathParser) (i : nat) : PathParser :=
  {| segments := segments path; pathValue := pathValue path; index := i;
     param := param path; segmentStart := segmentStart path; data := data path;
     err := err path |}.

Definition set_err (path : PathParser) (message : string) : PathParser :=
  {| segments := segments path; pathValue := pathValue path; index := index path;
     param := param path; segmentStart := segmentStart path; data := data path;
     err := message |}.

Definition failed (path : PathParser) : bool := negb (bool_decide (err path = "")).

(** The text from the cursor on *)
Definition ahead (path : PathParser) : list ascii := drop (index path) (pathValue path).

Definition isSpace (ch : ascii) : bool :=
  bool_decide (nat_of_ascii ch ∈ [32; 9; 10; 11; 12; 13]).

Definition isDigit (ch : ascii) : bool :=
  (48 <=? nat_of_ascii ch) && (nat_of_ascii ch <=? 57).

(** "[0-9]|+|-|." *)
Definition isDigitStart (ch : ascii) : bool :=
  isDigit ch || bool_decide (ch = "+"%char) || bool_decide (ch = "-"%char) ||
  bool_decide (ch = "."%char).

Definition command_of (ch : ascii) : option (kind * bool) := kind_of (String ch "").

Definition isPathCommand (ch : ascii) : bool :=
  match command_of ch with Some _ => true | None => false end.

Definition isArcCommand (ch : ascii) : bool :=
  match command_of ch with Some (KA, _) => true | _ => false end.

(** The longest prefix whose characters satisfy [f] *)
Fixpoint span (f : ascii -> bool) (l : list ascii) : list ascii :=
  match l with
  | ch :: rest => if f ch then ch :: span f rest else []
  | [] => []
  end.

(** "Separators (whitespace, commas) are optional and skippable." *)
Definition skipSpaces (path : PathParser) : PathParser :=
  set_index path (index path + length (span isSpace (ahead path))).

(** "Arc flags are scanned as single-digit booleans even when immediately
    adjacent to following digits with no separator." *)
Definition scanFlag (path : PathParser) : PathParser :=
  match ahead path with
  | ch :: _ =>
      if bool_decide (ch = "0"%char) || bool_decide (ch = "1"%char) then
        {| segments := segments path; pathValue := pathValue path;
           index := S (index path); param := of_literal (String ch "");
           segmentStart := segmentStart path; data := data path; err := err path |}
      else set_err path "invalid Arc flag, expecting 0 or 1"
  | [] => set_err path "invalid Arc flag, expecting 0 or 1"
  end.

Definition is_sign (ch : ascii) : bool :=
  bool_decide (ch = "+"%char) || bool_decide (ch = "-"%char).

Definition is_exponent_mark (ch : ascii) : bool :=
  bool_decide (ch = "e"%char) || bool_decide (ch = "E"%char).

(** The length of the sign, if any, a text starts with *)
Definition sign_length (l : list ascii) : nat :=
  match l with
  | ch :: _ => if is_sign ch then 1 else 0
  | [] => 0
  end.

(** "Numeric literals support sign, integer/fractional parts, and
    exponents."  The result is the length of the numeral a text starts
    with, or the reason why it starts with none. *)
Definition numeral_length (l : list ascii) : nat + string :=
  let sgn := sign_length l in
  let whole := length (span isDigit (drop sgn l)) in
  let after_whole := drop (sgn + whole) l in
  let fraction :=
    match after_whole with
    | ch :: rest => if bool_decide (ch = "."%char) then Some (length (span isDigit rest))
                    else None
    | [] => None
    end in
  let mantissa := sgn + whole + match fraction with Some n => S n | None => 0 end in
  if bool_decide (whole + default 0 fraction = 0) then inr "not a number"
  else
    match drop mantissa l with
    | ch :: rest =>
        if is_exponent_mark ch then
          let esgn := sign_length rest in
          let digits := length (span isDigit (drop esgn rest)) in
          if bool_decide (digits = 0) then inr "invalid float exponent"
          else inl (mantissa + 1 + esgn + digits)
        else inl mantissa
    | [] => inl mantissa
    end.

Definition scanParam (path : PathParser) : PathParser :=
  match ahead path with
  | [] => set_err path "missing param"
  | l =>
      match numeral_length l with
      | inl n =>
          {| segments := segments path; pathValue := pathValue path;
             index := index path + n;
             param := of_literal (String.string_of_list_ascii (take n l));
             segmentStart := segmentStart path; data := data path; err := err path |}
      | inr message => set_err path message
      end
  end.

Definition push_param (path : PathParser) : PathParser :=
  {| segments := segments path; pathValue := pathValue path; index := index path;
     param := param path; segmentStart := segmentStart path;
     data := data path ++ [param path]; err := err path |}.

(** A comma after a value, with the blanks around it *)
Definition skipComma (path : PathParser) : PathParser :=
  match ahead path with
  | ch :: _ => if bool_decide (ch = ","%char) then skipSpaces (set_index path (S (index path)))
               else path
  | [] => path
  end.

(** The values of one segment: [i] counts the values still to read; of an
    arc the fourth and the fifth are flags. *)
Fixpoint scanParams (arc : bool) (i : nat) (path : PathParser) : PathParser :=
  match i with
  | O => path
  | S i' =>
      let path1 := if arc && (bool_decide (i = 3) || bool_decide (i = 4))
                   then scanFlag path else scanParam path in
      if failed path1 then path1
      else scanParams arc i' (skipComma (skipSpaces (push_param path1)))
  end.

(** "A bare numeric value following a completed segment implicitly repeats
    the previous command." *)
Fixpoint scanGroups (fuel : nat) (arc : bool) (reqParams : nat) (path : PathParser)
  : PathParser :=
  match fuel with
  | O => set_err path "out of fuel"
  | S fuel' =>
      let path1 := scanParams arc reqParams path in
      if failed path1 then path1
      else
        match ahead path1 with
        | ch :: _ => if isDigitStart ch then scanGroups fuel' arc reqParams path1 else path1
        | [] => path1
        end
  end.

(** The segments a run of values makes, [n] values to each. *)
Fixpoint chunk_segments (fuel : nat) (cmd : string) (n : nat) (values : list num)
  : PathArray :=
  match fuel with
  | O => []
  | S fuel' =>
      if decide (n <= length values) then
        Segment cmd (take n values) ::
          (if decide (n = 0) then [] else chunk_segments fuel' cmd n (drop n values))
      else []
  end.

(** "A segment is finalized — appended to the output and a new accumulator
    started"; "M implicitly repeats as L". *)
Definition finalizeSegment (path : PathParser) : PathParser :=
  let made :=
    match pathValue path !! segmentStart path with
    | Some ch =>
        match command_of ch with
        | Some (KM, relative) =>
            if decide (2 < length (data path)) then
              Segment (String ch "") (take 2 (data path)) ::
                chunk_segments (S (length (data path))) (letter KL relative) (arity KL)
                  (drop 2 (data path))
            else chunk_segments (S (length (data path))) (String ch "") (arity KM) (data path)
        | Some (k, _) =>
            chunk_segments (S (length (data path))) (String ch "") (arity k) (data path)
        | None => []
        end
    | None => []
    end in
  {| segments := segments path ++ made; pathValue := pathValue path; index := index path;
     param := param path; segmentStart := segmentStart path; data := []; err := err path |}.

Definition scanSegment (path : PathParser) : PathParser :=
  match ahead path with
  | ch :: _ =>
      match command_of ch with
      | None => set_err path "not a path command"
      | Some (k, _) =>
          let path1 :=
            skipSpaces
              {| segments := segments path; pathValue := pathValue path;
                 index := S (index path); param := param path;
                 segmentStart := index path; data := []; err := err path |} in
          if decide (arity k = 0) then finalizeSegment path1
          else finalizeSegment (scanGroups (S (max path)) (isArcCommand ch) (arity k) path1)
      end
  | [] => path
  end.

(** [while (index < max && !err.length) scanSegment(path)] *)
Fixpoint scanSegments (fuel : nat) (path : PathParser) : PathParser :=
  if bool_decide (index path < max path) && negb (failed path) then
    match fuel with
    | O => set_err path "out of fuel"
    | S fuel' => scanSegments fuel' (scanSegment path)
    end
  else path.

(** "an error value carrying position and message" *)
Record ParseError := { message : string; position : nat }.

(** Modelled from the spec: the scanner of section 4.1 ([parsePathString],
    src/parser/parsePathString, is only declared in the sources):
    [parse(text) -> Path | ParseError]. *)
Definition parsePathString (text : string) : PathArray + ParseError :=
  let chars := String.list_ascii_of_string text in
  let path :=
    scanSegments (S (length chars))
      (skipSpaces {| segments := []; pathValue := chars; index := 0; param := zero;
                     segmentStart := 0; data := []; err := "" |}) in
  if failed path then inr {| message := err path; position := index path |}
  else inl (segments path).

(** The arity invariant of section 3 *)
Definition has_arity (seg : segment) : bool :=
  bool_decide (paramsCount (command seg) = Some (length (values seg))).

Definition well_formed (seg : segment) : Prop :=
  exists k relative, command seg = letter k relative /\ length (values seg) = arity k.

(** The scanner did not stop for want of fuel. *)
Definition fueled (path : PathParser) : Prop := err path <> "out of fuel".

(** [path'] is a later state of the scan of the same text. *)
Definition steps (path path' : PathParser) : Prop :=
  pathValue path' = pathValue path /\ index path <= index path' /\
  (fueled path -> fueled path').

End Scanner.

(** * A sample instance

    To run the model on concrete paths: exact rationals for the numbers (NaN
    is [None]), affine 2D matrices for [CSSMatrix], the converters above for
    [pathToAbsolute] and [normalizePath].  Rationals cannot express the
    trigonometry of section 4.4, so the sample [arcToCubic] lays its cubics
    along the chord of the arc, which is what that section prescribes for
    degenerate arcs; it makes two cubics when the large-arc flag is set. *)

Module Sample.

Definition lift2 (f : Q -> Q -> Q) (a b : option Q) : option Q :=
  match a, b with
  | Some p, Some q => Some (Qred (f p q))
  | _, _ => None
  end.

Definition digit_value (ch : ascii) : Z := (Z.of_nat (nat_of_ascii ch) - 48)%Z.

Definition digits_value (l : list ascii) : Z :=
  fold_left (fun acc ch => (10 * acc + digit_value ch)%Z) l 0%Z.

Definition starts_with (ch : ascii) (l : list ascii) : bool :=
  match l with
  | ch' :: _ => bool_decide (ch' = ch)
  | [] => false
  end.

(** The value of a decimal numeral, with or without fraction and exponent. *)
Definition literal_value (text : string) : option Q :=
  let l := String.list_ascii_of_string text in
  let sgn := sign_length l in
  let whole := span isDigit (drop sgn l) in
  let after_whole := drop (sgn + length whole) l in
  let fraction := if starts_with "." after_whole
                  then span isDigit (drop 1 after_whole) else [] in
  let dot := if starts_with "." after_whole then 1 else 0 in
  let after_mantissa := drop (dot + length fraction) after_whole in
  let exponent :=
    match after_mantissa with
    | ch :: rest =>
        if is_exponent_mark ch then
          let e := digits_value (span isDigit (drop (sign_length rest) rest)) in
          if starts_with "-" rest then (- e)%Z else e
        else 0%Z
    | [] => 0%Z
    end in
  if bool_decide (length whole + length fraction = 0) then None
  else
    let magnitude :=
      (inject_Z (digits_value (whole ++ fraction)) *
       Qpower (10 # 1) (exponent - Z.of_nat (length fraction)))%Q in
    Some (Qred (if starts_with "-" l then - magnitude else magnitude)%Q).

Definition exact : JsNumber := {|
  num := option Q;
  zero := Some 0%Q;
  NaN := None;
  strict_eq a b := match a, b with
                   | Some p, Some q => Qeq_bool p q
                   | _, _ => false
                   end;
  truthy a := match a with
              | Some p => negb (Qeq_bool p 0)
              | None => false
              end;
  add := lift2 Qplus;
  sub := lift2 Qminus;
  mul := lift2 Qmult;
  two := Some 2%Q;
  two_thirds := Some (2 # 3)%Q;
  of_literal := literal_value |}.
#[local] Existing Instance exact.

(** A point two thirds of the way from [p] to [q] *)
Definition along (p q : num) : num := add p (mul two_thirds (sub q p)).

Definition chords : ArcConversion := {|
  arcToCubic a1 b1 rx ry angle laf sf a2 b2 :=
    if truthy laf then
      lineToCubic a1 b1 (along a1 a2) (along b1 b2) ++
      lineToCubic (along a1 a2) (along b1 b2) a2 b2
    else lineToCubic a1 b1 a2 b2 |}.
#[local] Existing Instance chords.

(** [a b c d e f] of the 2D matrix *)
Record matrix := Matrix { ma : Q; mb : Q; mc : Q; md : Q; me : Q; mf : Q }.

Definition identity : matrix := Matrix 1 0 0 1 0 0.

Definition is_identity (m : matrix) : bool :=
  Qeq_bool (ma m) 1 && Qeq_bool (mb m) 0 && Qeq_bool (mc m) 0 &&
  Qeq_bool (md m) 1 && Qeq_bool (me m) 0 && Qeq_bool (mf m) 0.

(** The strings the sample constructor reads *)
Definition matrix_of_string (text : string) : option matrix :=
  if bool_decide (text = "") || bool_decide (text = "none") then Some identity else None.

Definition component (k : nat) (fallback : Q) (v : option transformValue) : Q :=
  match v with
  | Some (TNumber (Some q)) => q
  | Some (TArray ns) => match ns !! k with Some (Some q) => q | _ => fallback end
  | _ => fallback
  end.

(** Translation and scaling; the sample knows no rotation and no skew. *)
Definition matrix_of (t : TransformObject) : matrix :=
  Matrix (component 0 1 (scale t)) 0 0 (component 1 1 (scale t))
         (component 0 0 (translate t)) (component 1 0 (translate t)).

(** "translate to origin, apply matrix, translate back" *)
Definition project (m : matrix) (p : num * num) (o : num * num * num) : num * num :=
  let '(px, py) := p in
  let '(ox, oy, _) := o in
  let dx := sub px ox in
  let dy := sub py oy in
  (add (add (add (mul (Some (ma m)) dx) (mul (Some (mc m)) dy)) (Some (me m))) ox,
   add (add (add (mul (Some (mb m)) dx) (mul (Some (md m)) dy)) (Some (mf m))) oy).

(** An array is read as a path when every segment has a command letter
    and the values that command takes. *)
Definition to_absolute (input : pathInput) : option PathArray :=
  match input with
  | PathSegments p => if forallb has_arity p then Some (toAbsolute p) else None
  | PathString d =>
      match parsePathString d with
      | inl p => Some (toAbsolute p)
      | inr _ => None
      end
  end.

(** The conversion of one segment that starts at [(x1, y1)] of [params] *)
Definition to_cubic (seg : segment) (p : parserParams unit)
  : segment * parserParams unit :=
  (match kind_of (command seg), values seg with
   | Some (KA, false), vs =>
       Segment "C" (arcToCubic (x1 p) (y1 p) (nth 0 vs NaN) (nth 1 vs NaN) (nth 2 vs NaN)
                      (nth 3 vs NaN) (nth 4 vs NaN) (nth 5 vs NaN) (nth 6 vs NaN))
   | Some (KL, false), [a; b] => Segment "C" (lineToCubic (x1 p) (y1 p) a b)
   | Some (KQ, false), [qa; qb; a; b] => Segment "C" (quadToCubic (x1 p) (y1 p) qa qb a b)
   | _, _ => seg
   end, p).

(** The pieces of a segment: six values each when it holds more than six *)
Definition pieces (seg : segment) : list segment :=
  if decide (6 < length (values seg)) then cubic_chunks (values seg) else [seg].

Definition fix_arc (path : list (option segment)) (cmds : list (option string)) (i : nat)
  : list (option segment) * list (option string) :=
  match js_get path i with
  | Some seg =>
      if decide (6 < length (values seg)) then
        (take i path ++ (Some <$> cubic_chunks (values seg)) ++ drop (S i) path,
         js_set cmds i "A")
      else (path, cmds)
  | None => (path, cmds)
  end.

Definition collaborators : Collaborators := {|
  CSSMatrix := matrix;
  CSSMatrix_new := identity;
  CSSMatrix_fromString := matrix_of_string;
  isIdentity := is_identity;
  paramsRest := unit;
  paramsParser := {| x1 := zero; y1 := zero; x2 := zero; y2 := zero; others := tt |};
  pathToAbsolute := to_absolute;
  normalizePath := normalize;
  segmentToCubic := to_cubic;
  fixArc := fix_arc;
  getSVGMatrix := matrix_of;
  projection2d := project |}.
#[local] Existing Instance collaborators.

(** *** On the store *)

(** The segments an array refers to *)
Fixpoint read_segments (slots : list (option loc)) : St PathArray :=
  match slots with
  | [] => st_ret []
  | slot :: rest =>
      st_bind (st_lift (defined slot)) (fun l =>
      st_bind (read_segment l) (fun seg =>
      st_bind (read_segments rest) (fun p => st_ret (seg :: p))))
  end.

Fixpoint new_segments (p : PathArray) : St (list (option loc)) :=
  match p with
  | [] => st_ret []
  | seg :: rest =>
      st_bind (new_segment seg) (fun l =>
      st_bind (new_segments rest) (fun slots => st_ret (Some l :: slots)))
  end.

(** A new array of new segments *)
Definition new_path (p : PathArray) : St loc :=
  st_bind (new_segments p) new_array.

Definition read_path (q : loc) : St PathArray :=
  st_bind (read_array q) read_segments.

(** The copy a spread makes: a new array of the same segments *)
Definition spread_st (path : loc) : St (option loc) :=
  st_bind (read_array path) (fun slots => st_bind (new_array slots) (fun q => st_ret (Some q))).

(** Modelled from the spec: [pathToAbsolute] on a path array
    (src/convert/pathToAbsolute is only declared in the sources).  Section 1
    has the structural predicates "short-circuit redundant conversions": an
    array whose segments are absolute already is not converted, the call
    hands back a spread of it, which refers to the caller's own segments.
    Any other array is rewritten into new segments. *)
Definition to_absolute_st (path : loc) : St (option loc) :=
  st_bind (read_path path) (fun p =>
    if negb (forallb has_arity p) then st_ret None
    else if forallb (fun seg => is_absolute (command seg)) p then spread_st path
    else st_bind (new_path (toAbsolute p)) (fun q => st_ret (Some q))).

Definition normalize_st (q : loc) : St loc :=
  st_bind (read_path q) (fun p => new_path (normalize p)).

Definition to_cubic_st (n : loc) (p : parserParams unit) : St (loc * parserParams unit) :=
  st_bind (read_segment n) (fun seg =>
  st_bind (new_segment (fst (to_cubic seg p))) (fun l => st_ret (l, p))).

Definition fix_arc_st (q : loc) (cmds : list (option string)) (i : nat)
  : St (list (option string)) :=
  st_bind (read_array q) (fun slots =>
  match js_get slots i with
  | Some l =>
      st_bind (read_segment l) (fun seg =>
      if decide (6 < length (values seg)) then
        st_bind (new_segments (cubic_chunks (values seg))) (fun made =>
        st_bind (write_array q (take i slots ++ made ++ drop (S i) slots)) (fun _ =>
        st_ret (js_set cmds i "A")))
      else st_ret cmds)
  | None => st_ret cmds
  end).

Definition on_store : StoreCollaborators := {|
  pathToAbsolute_st := to_absolute_st;
  normalizePath_st := normalize_st;
  segmentToCubic_st := to_cubic_st;
  fixArc_st := fix_arc_st |}.

End Sample.

(** ** Sample inputs *)

Section SampleInputs.
#[local] Existing Instances Sample.exact Sample.chords Sample.collaborators Sample.on_store.

Definition q (z : Z) : num := Some (inject_Z z).

(** [{ translate: [10, 20] }] *)
Definition shift : TransformObject :=
  {| translate := Some (TArray [q 10; q 20]); rotate := None; skew := None;
     scale := None; origin := None |}.

(** The matrix of [shift] *)
Definition shift_matrix : CSSMatrix := Sample.Matrix 1 0 0 1 (10 # 1) (20 # 1).

(** [{}] *)
Definition empty : TransformObject :=
  {| translate := None; rotate := None; skew := None; scale := None; origin := None |}.

(** A path with a relative line, a shorthand, an arc that makes two cubics
    and a close. *)
Definition sample_path : PathArray :=
  [Segment "M" [q 1; q 2]; Segment "l" [q 3; q 4]; Segment "H" [q 9];
   Segment "A" [q 1; q 1; q 0; q 1; q 0; q 8; q 9]; Segment "Z" []].

(** The caller's store: the array at 1 refers to the segments at 1, 2, 3. *)
Definition caller_store : store :=
  Store {[ 1%positive := [Some 1%positive; Some 2%positive; Some 3%positive] ]}
        {[ 1%positive := Segment "M" [q 1; q 2];
           2%positive := Segment "L" [q 4; q 6];
           3%positive := Segment "A" [q 1; q 1; q 0; q 1; q 0; q 10; q 12] ]}.

End SampleInputs.

(** * What the loop of lines 72-113 computes, by recursion on the arrays *)

Section Entries.
Context `{JsNumber} `{!Collaborators}.

(** The entry lines 97-110 make when slot [i] of [absolutePath] holds [a]
    and slot [i] of [normalizedPath] holds [n]. *)
Definition entry_of (a n : segment) : PathTransform :=
  {| s := a; c := command a;
     x := seg_num n (seg_length n - 2); y := seg_num n (seg_length n - 1) |}.

(** The pieces [fixArc] put into both arrays are visited one after the
    other, each as its own absolute and normalized segment. *)
Fixpoint piece_entries (p : parserParams paramsRest) (pieces : list segment)
  : list PathTransform * parserParams paramsRest :=
  match pieces with
  | [] => ([], p)
  | piece :: rest =>
      let '(es, p') := piece_entries (set_xy p piece) rest in
      (entry_of piece piece :: es, p')
  end.

(** [entries_of arcChunks p absolutePath normalizedPath]: the entries in
    the order the loop appends them when it starts with [params = p].  An
    arc is converted from the normalized segment of its index (line 86) and
    gives the entries of the pieces [arcChunks] cuts the result into; any
    other segment gives one entry. *)
Fixpoint entries_of (arcChunks : segment -> list segment) (p : parserParams paramsRest)
    (absolutePath normalizedPath : list segment) : list PathTransform :=
  match absolutePath, normalizedPath with
  | a :: absolutePath', n :: normalizedPath' =>
      if decide (command a = "A") then
        let '(r, p1) := segmentToCubic n p in
        let '(es, p') := piece_entries p1 (arcChunks r) in
        es ++ entries_of arcChunks p' absolutePath' normalizedPath'
      else
        entry_of a n :: entries_of arcChunks (set_xy p n) absolutePath' normalizedPath'
  | _, _ => []
  end.




(** [params] after line 103 has read a segment without values: both
    [+segment[-1]] and [+segment[0]], the command letter, are [NaN]. *)
Definition params_of_close (p : parserParams paramsRest) : parserParams paramsRest :=
  {| x1 := NaN; y1 := NaN; x2 := NaN; y2 := NaN; others := others p |}.

(** The number of values the loop of lines 136-140 leaves in a segment of
    [n] values: the write of [segment[j + 1]] adds one to an odd count. *)
Definition projected_count (n : nat) : nat := 2 * Nat.div2 (S n).

End Entries.

(** Modelled from the spec: the running point of section 4.2 after the
    segments of an absolute path, "a Z resets the running point to the
    subpath start" (the converters that keep it are only declared in the
    sources). *)
Definition cursor_after `{JsNumber} (p : PathArray) : cursor := fold_left advance p cursor0.

(** ** A [normalizePath] that loses segments

    The sample collaborators, but that [normalizePath] hands back the first
    segment only. *)
Definition losing : Collaborators := {|
  CSSMatrix := Sample.matrix;
  CSSMatrix_new := Sample.identity;
  CSSMatrix_fromString := Sample.matrix_of_string;
  isIdentity := Sample.is_identity;
  paramsRest := unit;
  paramsParser := {| x1 := zero; y1 := zero; x2 := zero; y2 := zero; others := tt |};
  pathToAbsolute := Sample.to_absolute;
  normalizePath := fun p => take 1 (@normalize Sample.exact p);
  segmentToCubic := Sample.to_cubic;
  fixArc := Sample.fix_arc;
  getSVGMatrix := Sample.matrix_of;
  projection2d := Sample.project |}.

(** * Properties of transformPath *)

Section TransformPath.
Context `{JsNumber} `{!Collaborators}.

Lemma bind_Returned {A B} (m : outcome A) (f : A -> outcome B) b :
  m ≫= f = Returned b -> exists a, m = Returned a /\ f a = Returned b.
Proof. destruct m; simpl; intros E; try discriminate. eauto. Qed.

Lemma defined_Returned {A} (o : option A) a : defined o = Returned a -> o = Some a.
Proof. destruct o; simpl; congruence. Qed.

Lemma select_matrix_has_matrix transform o :
  select_matrix transform <> Returned (Some (None, o)).
Proof.
  unfold select_matrix. destruct transform as [[s|m|t]|]; try congruence.
  - destruct (CSSMatrix_fromString s); congruence.
  - case_decide; congruence.
Qed.

Lemma loop_body_benign i st : throws_invalid_matrix (loop_body i st) = false.
Proof.
  unfold loop_body.
  set (cmd := match js_get (absolutePath st) i with Some seg => _ | None => _ end).
  destruct (decide (cmd = "A")) as [_|_]; simpl.
  - destruct (js_get (normalizedPath st) i) as [n|]; simpl; [|done].
    destruct (segmentToCubic n (params st)) as [r1 p1].
    destruct (segmentToCubic n p1) as [a p2].
    destruct (fixArc _ _ i) as [abs' cmds1].
    destruct (segmentToCubic n p2) as [b p3].
    destruct (fixArc _ cmds1 i) as [norm' cmds2]; simpl.
    destruct (js_get norm' i); simpl; [|done].
    destruct (js_get abs' i); simpl; done.
  - destruct (js_get (normalizedPath st) i); simpl; [|done].
    destruct (js_get (absolutePath st) i); simpl; done.
Qed.

Lemma loop_benign fuel i st : throws_invalid_matrix (loop fuel i st) = false.
Proof.
  revert i st. induction fuel as [|fuel IH]; intros i st; simpl.
  - case_decide; done.
  - case_decide; [|done].
    pose proof (loop_body_benign i st) as Hb.
    destruct (loop_body i st) as [st'| e |]; simpl in *; auto.
Qed.

Lemma select_matrix_throws transform e :
  select_matrix transform = Thrown e -> e = TypeError.
Proof.
  unfold select_matrix. destruct transform as [[s|m|t]|]; try congruence.
  - destruct (CSSMatrix_fromString s); congruence.
  - case_decide; congruence.
Qed.

Lemma select_matrix_fuel transform : select_matrix transform <> OutOfFuel.
Proof.
  unfold select_matrix. destruct transform as [[s|m|t]|]; try congruence.
  - destruct (CSSMatrix_fromString s); congruence.
  - case_decide; congruence.
Qed.

(** C1.  When the transform argument denotes the identity (it is absent, an
    empty descriptor, or a string, matrix or descriptor whose matrix has its
    [isIdentity] flag set), [transformPath] returns the array
    [pathToAbsolute] produced, with no coordinate altered; the loop is not
    entered, so this holds whatever the fuel. *)
Theorem transformPath_identity fuel path transform absolutePath :
  pathToAbsolute path = Some absolutePath ->
  denotes_identity transform = true ->
  transformPath fuel path transform = Returned absolutePath.
Proof.
  intros Habs Hid. unfold transformPath, denotes_identity in *. rewrite Habs.
  destruct (select_matrix transform) as [[[[m|] o]|]| |]; simpl in *;
    try discriminate; [|reflexivity].
  by rewrite Hid.
Qed.

(** C10.  Every control path that reaches the test of line 61 has assigned
    a matrix to [matrixInstance], and no call of [transformPath] ends in the
    'invalid matrix instance' error. *)
Theorem transformPath_never_invalid_matrix fuel path transform :
  matrix_assigned (select_matrix transform) = true /\
  throws_invalid_matrix (transformPath fuel path transform) = false.
Proof.
  split.
  - pose proof (select_matrix_has_matrix transform) as Hm.
    unfold matrix_assigned.
    destruct (select_matrix transform) as [[[[m|] o]|]| |]; try done.
    by destruct (Hm o).
  - unfold transformPath. destruct (pathToAbsolute path) as [absolutePath|]; [|done].
    pose proof (select_matrix_has_matrix transform) as Hm.
    destruct (select_matrix transform) as [[[[m|] o]|]|e|] eqn:Hsel; simpl; try done.
    + destruct (isIdentity m); [done|].
      pose proof (loop_benign fuel 0 (loop_init absolutePath (normalizePath absolutePath))) as Hl.
      destruct (loop fuel 0 _); simpl in *; done.
    + by destruct (Hm o).
    + by rewrite (select_matrix_throws _ _ Hsel).
Qed.

Section Origin.
(** A descriptor that carries an origin and nothing else composes to the
    identity (section 6 of the specification: every field is optional and
    defaults to the identity). *)
Hypothesis getSVGMatrix_origin_only :
  forall o, isIdentity (getSVGMatrix (origin_only o)) = true.

(** C5.  A descriptor without an [origin] field is transformed about
    [0, 0, 0]: the call gives what the same descriptor with
    [origin: [0, 0, 0]] written out gives. *)
Theorem transformPath_default_origin fuel path t :
  origin t = None ->
  transformPath fuel path (Some (TrObject t)) =
  transformPath fuel path (Some (TrObject (assign_origin t (zero, zero, zero)))).
Proof using getSVGMatrix_origin_only.
  intros Ho. unfold transformPath.
  destruct (pathToAbsolute path) as [absolutePath|]; [|done].
  unfold select_matrix. rewrite Ho. simpl origin.
  assert (Hk : length (Object_keys (assign_origin t (zero, zero, zero))) <> 0).
  { unfold Object_keys. simpl. rewrite !length_app. simpl. lia. }
  destruct (decide (length (Object_keys (assign_origin t (zero, zero, zero))) = 0)) as [|_];
    [done|].
  destruct (decide (length (Object_keys t) = 0)) as [Hempty|Hne]; [|done].
  assert (assign_origin t (zero, zero, zero) = origin_only (zero, zero, zero)) as ->.
  { unfold Object_keys in Hempty. rewrite !length_app in Hempty.
    destruct t as [[?|] [?|] [?|] [?|] ?]; simpl in *; try lia. done. }
  simpl. by rewrite getSVGMatrix_origin_only.
Qed.
End Origin.

(** *** Lines 115-134: how a line entry is classified *)

Lemma project_values_point m o vs : forall xy,
  snd (project_values m o vs xy) =
  match last_pair vs with Some ab => projection2d m ab o | None => xy end.
Proof.
  assert (forall vs : list num,
            (forall xy, snd (project_values m o vs xy) =
               match last_pair vs with Some ab => projection2d m ab o | None => xy end) /\
            (forall a xy, snd (project_values m o (a :: vs) xy) =
               match last_pair (a :: vs) with
               | Some ab => projection2d m ab o
               | None => xy
               end)) as Hboth.
  { clear vs. induction vs as [|b vs [IH1 IH2]]; split.
    - done.
    - intros a xy. simpl. by destruct (projection2d m (a, NaN) o).
    - done.
    - intros a xy. simpl. destruct (projection2d m (a, b) o) as [px py] eqn:Hp.
      specialize (IH1 (px, py)).
      destruct (project_values m o vs (px, py)) as [rest' xy']. simpl in *.
      rewrite IH1. by destruct (last_pair vs). }
  apply Hboth.
Qed.

(** The callback leaves [(x, y)] as [point_after] says. *)
Lemma project_entry_point m o xy e :
  snd (project_entry m o xy e) = point_after m o xy e.
Proof.
  unfold project_entry, point_after. destruct (is_line_command (c e)).
  - by destruct (projection2d m (x e, y e) o).
  - pose proof (project_values_point m o (values (s e)) xy) as Hp.
    by destruct (project_values m o (values (s e)) xy).
Qed.

Lemma project_all_lookup m o xy tp k e :
  tp !! k = Some e ->
  project_all m o xy tp !! k =
    Some (fst (project_entry m o (running_point m o xy tp k) e)).
Proof.
  revert xy k. induction tp as [|e0 tp IH]; intros xy k Hk; [done|].
  destruct k as [|k]; simpl in *.
  - injection Hk as ->. by destruct (project_entry m o xy e).
  - rewrite <- (project_entry_point m o xy e0).
    destruct (project_entry m o xy e0) as [out xy'] eqn:He0. simpl. by apply IH.
Qed.

Lemma project_all_length m o xy tp : length (project_all m o xy tp) = length tp.
Proof.
  revert xy. induction tp as [|e0 tp IH]; intros xy; [done|].
  simpl. destruct (project_entry m o xy e0). simpl. by rewrite IH.
Qed.


(** *** Lines 72-113: what the loop keeps true *)

Lemma js_get_set_eq {A} (l : list (option A)) i v : js_get (js_set l i v) i = Some v.
Proof.
  unfold js_get, js_set. case_decide as Hi.
  - by rewrite list_lookup_insert_eq.
  - rewrite lookup_app_r by lia. rewrite lookup_app_r by (rewrite length_replicate; lia).
    rewrite length_replicate. by replace (i - length l - (i - length l)) with 0 by lia.
Qed.

Lemma js_set_length_gt {A} (l : list (option A)) i v : i < length (js_set l i v).
Proof.
  unfold js_set. case_decide.
  - by rewrite length_insert.
  - rewrite !length_app, length_replicate. simpl. lia.
Qed.

Lemma elem_of_js_set {A} (l : list (option A)) i v a :
  Some a ∈ js_set l i v -> a = v \/ Some a ∈ l.
Proof.
  unfold js_set. case_decide.
  - intros [j Hj]%list_elem_of_lookup_1.
    apply list_lookup_insert_Some in Hj as [(_ & ? & _)|[_ Hj]]; [left; congruence|].
    right. by eapply list_elem_of_lookup_2.
  - rewrite !elem_of_app. intros [?|[Hr|Hv]]; [by right| |].
    + by apply elem_of_replicate_inv in Hr.
    + apply list_elem_of_singleton in Hv. left. congruence.
Qed.

Lemma js_get_elem_of {A} (l : list (option A)) i a : js_get l i = Some a -> Some a ∈ l.
Proof.
  unfold js_get. destruct (l !! i) as [[b|]|] eqn:E; simpl; try done.
  intros [= ->]. by eapply list_elem_of_lookup_2.
Qed.

Section Loop.
(** What the absent collaborators are taken to do.  [fixArc] splices the
    pieces of the segment in slot [i] into the array at [i]; the pieces are
    the segment itself or cubic segments ("splits an extended A segment into
    cubic-bezier segments").  [segmentToCubic] returns a cubic or a moveto
    segment (its declared result type is [cubicSegment | MSegment]), or
    hands a segment it does not convert back as it is; an arc it converts. *)
Variable arcChunks : segment -> list segment.
Hypothesis fixArc_splice : forall path cmds i seg,
  js_get path i = Some seg ->
  fst (fixArc path cmds i) = take i path ++ (Some <$> arcChunks seg) ++ drop (S i) path.
Hypothesis arcChunks_shape : forall seg,
  arcChunks seg = [seg] \/
  (arcChunks seg <> [] /\ Forall (fun piece => command piece = "C") (arcChunks seg)).
Hypothesis segmentToCubic_cubic : forall seg p,
  command (fst (segmentToCubic seg p)) = "C" \/
  command (fst (segmentToCubic seg p)) = "M" \/
  (fst (segmentToCubic seg p) = seg /\ command seg <> "A").

Lemma arcChunks_nonempty seg : arcChunks seg <> [].
Proof using arcChunks_shape.
  destruct (arcChunks_shape seg) as [E|[? _]]; [by rewrite E|done].
Qed.

Lemma arcChunks_command seg piece :
  piece ∈ arcChunks seg -> piece = seg \/ command piece = "C".
Proof using arcChunks_shape.
  destruct (arcChunks_shape seg) as [E|[_ Hall]]; intros Hin.
  - rewrite E in Hin. apply list_elem_of_singleton in Hin. by left.
  - right. rewrite Forall_forall in Hall. by apply Hall.
Qed.

(** The array after [path[i] = a; fixArc(path, cmds, i)]. *)
Lemma fixArc_after_set path cmds i a :
  exists piece rest,
    arcChunks a = piece :: rest /\
    fst (fixArc (js_set path i a) cmds i) =
      take i (js_set path i a) ++ Some piece :: (Some <$> rest) ++ drop (S i) (js_set path i a) /\
    js_get (fst (fixArc (js_set path i a) cmds i)) i = Some piece.
Proof using fixArc_splice arcChunks_shape.
  pose proof (fixArc_splice (js_set path i a) cmds i a (js_get_set_eq _ _ _)) as E.
  pose proof (arcChunks_nonempty a) as Hne.
  destruct (arcChunks a) as [|piece rest] eqn:Hc; [done|].
  exists piece, rest. split; [done|]. split; [done|].
  rewrite E. unfold js_get.
  pose proof (js_set_length_gt path i a) as Hlen.
  rewrite lookup_app_r by (rewrite length_take; lia).
  rewrite length_take. by replace (i - i `min` length (js_set path i a)) with 0 by lia.
Qed.

Lemma elem_of_spliced path i a piece rest seg :
  arcChunks a = piece :: rest ->
  Some seg ∈ take i (js_set path i a) ++ Some piece :: (Some <$> rest) ++ drop (S i) (js_set path i a) ->
  seg = a \/ command seg = "C" \/ Some seg ∈ path.
Proof using arcChunks_shape.
  intros Hc. rewrite elem_of_app, elem_of_cons, elem_of_app.
  intros [Ht|[Hp|[Hr|Hd]]].
  - apply elem_of_take in Ht as (j & Hj & _).
    apply list_elem_of_lookup_2, elem_of_js_set in Hj. tauto.
  - injection Hp as ->. destruct (arcChunks_command a piece); [|tauto..].
    rewrite Hc. apply elem_of_cons. by left.
  - apply list_elem_of_fmap in Hr as (r & [= ->] & Hr).
    destruct (arcChunks_command a r); [|tauto..].
    rewrite Hc. apply elem_of_cons. by right.
  - apply list_elem_of_lookup_1 in Hd as [j Hj]. rewrite lookup_drop in Hj.
    apply list_elem_of_lookup_2, elem_of_js_set in Hj. tauto.
Qed.

Lemma loop_body_keeps (P : string -> Prop) i st st' :
  P "C" -> P "M" ->
  slots_ok P (absolutePath st) -> slots_ok P (normalizedPath st) ->
  entries_ok P (transformedPath st) ->
  loop_body i st = Returned st' ->
  slots_ok P (absolutePath st') /\ slots_ok P (normalizedPath st') /\
  entries_ok P (transformedPath st').
Proof using fixArc_splice arcChunks_shape segmentToCubic_cubic.
  intros HC HM Hslots Hnorm Hent. unfold loop_body.
  set (cmd := match js_get (absolutePath st) i with Some seg => _ | None => _ end).
  assert (Hcmd : forall seg, js_get (absolutePath st) i = Some seg -> cmd = command seg).
  { intros seg E. subst cmd. by rewrite E. }
  clearbody cmd.
  destruct (decide (cmd = "A")) as [HA|HA]; simpl.
  - destruct (js_get (normalizedPath st) i) as [n|] eqn:En; simpl; [|done].
    assert (Hn : P (command n)) by (by apply Hnorm, (js_get_elem_of _ i)).
    assert (Hres : forall p, P (command (fst (segmentToCubic n p))) /\
                             command (fst (segmentToCubic n p)) <> "A").
    { intros p. destruct (segmentToCubic_cubic n p) as [-> |[-> |[-> ?]]]; done. }
    destruct (segmentToCubic n (params st)) as [r1 p1].
    pose proof (Hres p1) as [Ha Ha'].
    destruct (segmentToCubic n p1) as [a p2]. simpl in Ha, Ha'.
    destruct (fixArc_after_set (absolutePath st) (js_set (allPathCommands st) i cmd) i a)
      as (piece & rest & Hc & Eabs & Hget).
    destruct (fixArc _ _ i) as [abs' cmds1]. simpl in Eabs, Hget.
    pose proof (Hres p2) as [Hb _].
    destruct (segmentToCubic n p2) as [b p3]. simpl in Hb.
    destruct (fixArc_after_set (normalizedPath st) cmds1 i b)
      as (piece' & rest' & Hc' & Enorm & _).
    destruct (fixArc _ cmds1 i) as [norm' cmds2]. simpl in Enorm. simpl.
    destruct (js_get norm' i) as [seg|]; simpl; [|done].
    rewrite Hget. simpl. intros [= <-]. simpl.
    assert (Hall : slots_ok P abs').
    { intros sg Hin. rewrite Eabs in Hin.
      destruct (elem_of_spliced _ _ _ _ _ _ Hc Hin) as [->|[->|?]]; auto. }
    assert (Hall' : slots_ok P norm').
    { intros sg Hin. rewrite Enorm in Hin.
      destruct (elem_of_spliced _ _ _ _ _ _ Hc' Hin) as [->|[->|?]]; auto. }
    split; [done|]. split; [done|].
    apply Forall_app. split; [done|]. apply Forall_singleton. simpl.
    assert (Hp : piece = a \/ command piece = "C").
    { apply arcChunks_command. rewrite Hc. apply elem_of_cons. by left. }
    split; [done|]. split.
    + apply Hall. by apply (js_get_elem_of _ i).
    + by destruct Hp as [->| ->].
  - destruct (js_get (normalizedPath st) i) as [seg|]; simpl; [|done].
    destruct (js_get (absolutePath st) i) as [a|] eqn:Ea; simpl; [|done].
    intros [= <-]. simpl. split; [done|]. split; [done|].
    apply Forall_app. split; [done|]. apply Forall_singleton. simpl.
    split; [done|]. split.
    + apply Hslots. by apply (js_get_elem_of _ i).
    + by rewrite <- (Hcmd a).
Qed.

Lemma loop_keeps (P : string -> Prop) fuel i st st' :
  P "C" -> P "M" ->
  slots_ok P (absolutePath st) -> slots_ok P (normalizedPath st) ->
  entries_ok P (transformedPath st) ->
  loop fuel i st = Returned st' ->
  entries_ok P (transformedPath st').
Proof using fixArc_splice arcChunks_shape segmentToCubic_cubic.
  intros HC HM. revert i st. induction fuel as [|fuel IH]; intros i st Hs Hn He; simpl.
  - case_decide; [done|]. by intros [= <-].
  - case_decide; [|by intros [= <-]].
    intros (st1 & Hb & Hl)%bind_Returned.
    destruct (loop_body_keeps P i st st1 HC HM Hs Hn He Hb) as (Hs1 & Hn1 & He1). eauto.
Qed.

(** *** The loop ends *)

Lemma count_arcs_app l1 l2 : count_arcs (l1 ++ l2) = count_arcs l1 + count_arcs l2.
Proof. induction l1 as [|[seg|] l1 IH]; simpl; lia. Qed.

Lemma count_arcs_cubic (l : list segment) :
  Forall (fun piece => command piece = "C") l -> count_arcs (Some <$> l) = 0.
Proof.
  induction 1 as [|seg l Hc _ IH]; [done|]. csimpl. rewrite Hc, IH.
  by destruct (decide ("C" = "A")).
Qed.

Lemma js_get_dense (la : list segment) i : js_get (Some <$> la) i = la !! i.
Proof. unfold js_get. rewrite list_lookup_fmap. by destruct (la !! i). Qed.

Lemma js_set_dense (la : list segment) i v :
  i < length la -> js_set (Some <$> la) i v = Some <$> <[i := v]> la.
Proof.
  intros Hi. unfold js_set. rewrite length_fmap.
  destruct (decide (i < length la)); [|lia]. by rewrite list_fmap_insert.
Qed.

Lemma splice_dense (la : list segment) i a piece rest :
  i < length la ->
  take i (js_set (Some <$> la) i a) ++ Some piece :: (Some <$> rest) ++
    drop (S i) (js_set (Some <$> la) i a) =
  Some <$> (take i la ++ piece :: rest ++ drop (S i) la).
Proof.
  intros Hi. rewrite js_set_dense by done.
  rewrite fmap_app, fmap_cons, fmap_app, fmap_take, fmap_drop, list_fmap_insert.
  rewrite take_insert_ge by lia. by rewrite drop_insert_lt by lia.
Qed.

Lemma drop_spliced (la : list segment) i piece rest :
  i < length la ->
  drop (S i) (take i la ++ piece :: rest ++ drop (S i) la) = rest ++ drop (S i) la.
Proof.
  intros Hi. rewrite drop_app_ge by (rewrite length_take; lia).
  rewrite length_take. by replace (S i - i `min` length la) with 1 by lia.
Qed.

(** A call leaves [params] in a state in which the same call gives the same
    result: the code calls [segmentToCubic] three times on one segment and
    takes the second and third result for the same conversion.
    [normalizePath] rewrites segment by segment, which is what indexing both
    arrays with one [i] relies on. *)
Hypothesis segmentToCubic_stable : forall seg p,
  segmentToCubic seg (snd (segmentToCubic seg p)) = segmentToCubic seg p.
Hypothesis normalizePath_length : forall p, length (normalizePath p) = length p.

Lemma loop_body_aligned i st :
  aligned st -> i < ii st ->
  exists st', loop_body i st = Returned st' /\ aligned st' /\
    (count_arcs (drop (S i) (absolutePath st')) < count_arcs (drop i (absolutePath st)) \/
     (count_arcs (drop (S i) (absolutePath st')) = count_arcs (drop i (absolutePath st)) /\
      ii st' = ii st)).
Proof using fixArc_splice arcChunks_shape segmentToCubic_stable.
  intros (la & ln & Ea & En & Hlen & Hii) Hi.
  destruct st as [abs0 norm0 cmds0 p0 pc0 tp0 ii0]. simpl in *. subst abs0 norm0 ii0.
  destruct (lookup_lt_is_Some_2 la i Hi) as [sa Hsa].
  destruct (lookup_lt_is_Some_2 ln i ltac:(lia)) as [sn Hsn].
  assert (Hdrop : drop i (Some <$> la) = Some sa :: drop (S i) (Some <$> la)).
  { rewrite <- !fmap_drop. by rewrite (drop_S _ _ _ Hsa). }
  unfold loop_body. simpl. rewrite !js_get_dense, Hsa, Hsn. simpl.
  destruct (decide (command sa = "A")) as [HA|HA]; simpl.
  - pose proof (segmentToCubic_stable sn p0) as Hst.
    destruct (segmentToCubic sn p0) as [a p1]. simpl in Hst. rewrite !Hst.
    destruct (fixArc_after_set (Some <$> la) (js_set cmds0 i (command sa)) i a)
      as (piece & rest & Hc & Eabs & Hga).
    destruct (fixArc (js_set (Some <$> la) i a) _ i) as [abs' cmds1]. simpl in Eabs, Hga.
    destruct (fixArc_after_set (Some <$> ln) cmds1 i a)
      as (piece' & rest' & Hc' & Enorm & Hgn).
    rewrite Hc in Hc'. injection Hc' as <- <-.
    destruct (fixArc (js_set (Some <$> ln) i a) cmds1 i) as [norm' cmds2]. simpl in Enorm, Hgn.
    simpl. rewrite Hgn, Hga. simpl.
    rewrite splice_dense in Eabs by done. rewrite splice_dense in Enorm by lia.
    eexists. split; [done|]. simpl. split.
    + exists (take i la ++ piece :: rest ++ drop (S i) la),
             (take i ln ++ piece :: rest ++ drop (S i) ln).
      split; [done|]. split; [done|].
      rewrite Eabs, Enorm, !length_fmap, !length_app. simpl.
      rewrite !length_app, !length_take, !length_drop. lia.
    + left. rewrite Hdrop. simpl.
      destruct (decide (command sa = "A")); [|done].
      rewrite Eabs, <- fmap_drop, drop_spliced by done.
      rewrite fmap_app, count_arcs_app, fmap_drop.
      assert (count_arcs (Some <$> rest) = 0) as ->; [|lia].
      destruct (arcChunks_shape a) as [E|[_ Hall]].
      * rewrite Hc in E. by injection E as _ ->.
      * rewrite Hc in Hall. apply count_arcs_cubic. by inversion Hall.
  - rewrite !js_get_dense, Hsa, Hsn. simpl.
    eexists. split; [done|]. simpl. split.
    + by exists la, ln.
    + right. split; [|done]. rewrite Hdrop. simpl.
      by destruct (decide (command sa = "A")).
Qed.

Lemma loop_terminates n : forall d i st,
  aligned st -> count_arcs (drop i (absolutePath st)) <= n -> ii st - i <= d ->
  exists fuel st', forall fuel', fuel <= fuel' -> loop fuel' i st = Returned st'.
Proof using fixArc_splice arcChunks_shape segmentToCubic_stable.
  induction n as [n IHn] using lt_wf_ind.
  induction d as [d IHd] using lt_wf_ind. intros i st Hal Hn Hd.
  destruct (decide (i < ii st)) as [Hi|Hi].
  - destruct (loop_body_aligned i st Hal Hi) as (st1 & Hb & Hal1 & Hm).
    assert (exists fuel st', forall fuel', fuel <= fuel' -> loop fuel' (S i) st1 = Returned st')
      as (fuel & st' & Hl).
    { destruct Hm as [Hlt|[Heq Hii]].
      - eapply (IHn (count_arcs (drop (S i) (absolutePath st1)))); [lia|done|done|done].
      - eapply (IHd (ii st1 - S i)); [lia|done|lia|done]. }
    exists (S fuel), st'. intros [|fuel'] Hf; [lia|]. simpl.
    destruct (decide (i < ii st)); [|lia]. rewrite Hb. simpl. apply Hl. lia.
  - exists 0, st. intros [|fuel'] _; simpl; by destruct (decide (i < ii st)).
Qed.

Lemma loop_init_aligned absolutePath :
  aligned (loop_init absolutePath (normalizePath absolutePath)).
Proof using normalizePath_length.
  exists absolutePath, (normalizePath absolutePath). by rewrite normalizePath_length.
Qed.

(** Whenever [pathToAbsolute] and the choice of the matrix do not throw,
    [transformPath] returns. *)
Lemma transformPath_returns path transform absolutePath sel :
  pathToAbsolute path = Some absolutePath ->
  select_matrix transform = Returned sel ->
  exists fuel out, forall fuel', fuel <= fuel' ->
    transformPath fuel' path transform = Returned out.
Proof using fixArc_splice arcChunks_shape segmentToCubic_stable normalizePath_length.
  intros Habs Hsel. unfold transformPath. rewrite Habs, Hsel. simpl.
  destruct sel as [[[m|] o]|].
  - destruct (isIdentity m); [by exists 0, absolutePath|].
    destruct (loop_terminates _ _ 0 _ (loop_init_aligned absolutePath) (le_n _) (le_n _))
      as (fuel & st & Hl).
    exists fuel, (project_all m o (zero, zero) (transformedPath st)).
    intros fuel' Hf. by rewrite (Hl fuel' Hf).
  - by destruct (select_matrix_has_matrix transform o).
  - by exists 0, absolutePath.
Qed.

(** *** What the projection does to the commands *)

Lemma project_entry_command m o xy e :
  command (fst (project_entry m o xy e)) = "L" \/
  command (fst (project_entry m o xy e)) = "H" \/
  command (fst (project_entry m o xy e)) = "V" \/
  command (fst (project_entry m o xy e)) = command (s e).
Proof.
  unfold project_entry. destruct (is_line_command (c e)).
  - destruct (projection2d m (x e, y e) o) as [lx ly]. simpl.
    destruct (strict_eq (fst xy) lx), (strict_eq (snd xy) ly); simpl; auto.
  - destruct (project_values m o (values (s e)) xy). simpl. auto.
Qed.

Lemma project_all_commands (Q : string -> Prop) m o xy tp :
  Q "L" -> Q "H" -> Q "V" ->
  Forall (fun e => Q (command (s e))) tp ->
  Forall (fun seg => Q (command seg)) (project_all m o xy tp).
Proof.
  intros HL HH HV Htp. revert xy.
  induction Htp as [|e tp He _ IH]; intros xy; simpl; [constructor|].
  pose proof (project_entry_command m o xy e) as Hc.
  destruct (project_entry m o xy e) as [out xy']. simpl in Hc.
  constructor; [|apply IH].
  destruct Hc as [->|[->|[->| ->]]]; done.
Qed.

Lemma transformPath_commands (P : string -> Prop) fuel path transform out :
  P "C" -> P "M" -> P "L" -> P "H" -> P "V" ->
  (forall absolutePath, pathToAbsolute path = Some absolutePath ->
     Forall (fun seg => P (command seg)) absolutePath /\
     Forall (fun seg => P (command seg)) (normalizePath absolutePath)) ->
  transformPath fuel path transform = Returned out ->
  Forall (fun seg => P (command seg)) out /\
  (denotes_identity transform = false -> Forall (fun seg => command seg <> "A") out).
Proof using fixArc_splice arcChunks_shape segmentToCubic_cubic.
  intros HC HM HL HH HV Habs. unfold transformPath, denotes_identity.
  destruct (pathToAbsolute path) as [absolutePath|]; [|done].
  destruct (Habs absolutePath eq_refl) as [Ha Hn].
  assert (Hdense : forall l : list segment,
            Forall (fun seg => P (command seg)) l -> slots_ok P (Some <$> l)).
  { intros l Hl seg (sg & [= ->] & Hin)%list_elem_of_fmap.
    rewrite Forall_forall in Hl. by apply Hl. }
  destruct (select_matrix transform) as [[[[m|] o]|]| |]; simpl; try done.
  - destruct (isIdentity m); [by intros [= <-]|].
    intros (st & Hl & [= <-])%bind_Returned.
    apply (loop_keeps P) in Hl; [|done|done|by apply Hdense|by apply Hdense|constructor].
    split; [|intros _].
    + apply (project_all_commands P); try done.
      eapply Forall_impl; [exact Hl|]. simpl. by intros e (<- & ? & _).
    + apply (project_all_commands (fun cmd => cmd <> "A")); try done.
      eapply Forall_impl; [exact Hl|]. simpl. by intros e (<- & _ & ?).
  - by intros [= <-].
Qed.

Section Absolute.
(** [pathToAbsolute] returns "an array of segments, all converted to
    absolute values", and [normalizePath] keeps such an array absolute. *)
Hypothesis pathToAbsolute_absolute : forall path absolutePath,
  pathToAbsolute path = Some absolutePath ->
  Forall (fun seg => is_absolute (command seg) = true) absolutePath.
Hypothesis normalizePath_absolute : forall p,
  Forall (fun seg => is_absolute (command seg) = true) p ->
  Forall (fun seg => is_absolute (command seg) = true) (normalizePath p).

(** C9.  Whatever the transform argument (absent, empty, the identity or
    not), the call returns as soon as its inputs are read without an error,
    and every segment of the path it returns has an upper-case command. *)
Theorem transformPath_absolute path transform absolutePath sel :
  pathToAbsolute path = Some absolutePath ->
  select_matrix transform = Returned sel ->
  (exists fuel out, transformPath fuel path transform = Returned out) /\
  (forall fuel out, transformPath fuel path transform = Returned out ->
     Forall (fun seg => is_absolute (command seg) = true) out).
Proof using fixArc_splice arcChunks_shape segmentToCubic_cubic segmentToCubic_stable
  normalizePath_length pathToAbsolute_absolute normalizePath_absolute.
  intros Habs Hsel. split.
  - destruct (transformPath_returns path transform _ _ Habs Hsel) as (fuel & out & Hr).
    exists fuel, out. by apply Hr.
  - intros fuel out Hout.
    apply (transformPath_commands (fun cmd => is_absolute cmd = true)) in Hout as [Hout _];
      [done|reflexivity..|].
    intros p Hp. split; [|apply normalizePath_absolute]; by apply (pathToAbsolute_absolute path).
Qed.
End Absolute.

End Loop.

End TransformPath.

(** * Properties of the pipeline *)

Section PipelineFacts.
Context `{JsNumber} `{!ArcConversion}.

Lemma kind_of_letter k r : kind_of (letter k r) = Some (k, r).
Proof. by destruct k, r. Qed.

Lemma kind_of_Some cmd k r : kind_of cmd = Some (k, r) -> cmd = letter k r.
Proof.
  unfold kind_of. destruct (list_find _ _) as [[i kr]|] eqn:E; [|done].
  apply list_find_Some in E as (_ & E & _). simpl. by intros [= ->].
Qed.

Lemma kind_of_L : kind_of "L" = Some (KL, false).
Proof. reflexivity. Qed.
Lemma kind_of_C : kind_of "C" = Some (KC, false).
Proof. reflexivity. Qed.
Lemma kind_of_Q : kind_of "Q" = Some (KQ, false).
Proof. reflexivity. Qed.

(** ** The three forms *)

Lemma cubic_curve_form vs : curve_form (Segment "C" vs).
Proof. by repeat split. Qed.

(** ** ToAbsolute *)

Lemma to_absolute_segment_form cur seg : absolute_form (to_absolute_segment cur seg).
Proof.
  unfold absolute_form, is_relative, to_absolute_segment.
  destruct (kind_of (command seg)) as [[k []]|] eqn:E; simpl; rewrite ?kind_of_letter, ?E; done.
Qed.

Lemma to_absolute_segment_id cur seg :
  absolute_form seg -> to_absolute_segment cur seg = seg.
Proof.
  unfold absolute_form, is_relative, to_absolute_segment.
  by destruct (kind_of (command seg)) as [[k []]|].
Qed.

Lemma to_absolute_from_form cur p : Forall absolute_form (to_absolute_from cur p).
Proof.
  revert cur. induction p as [|seg p IH]; intros cur; simpl; constructor; [|done].
  apply to_absolute_segment_form.
Qed.

Lemma to_absolute_from_id cur p : Forall absolute_form p -> to_absolute_from cur p = p.
Proof.
  intros Hp. revert cur. induction Hp as [|seg p Hseg _ IH]; intros cur; simpl; [done|].
  rewrite to_absolute_segment_id by done. by rewrite IH.
Qed.

(** ** Normalize *)

Lemma expand_segment_form ctx seg :
  absolute_form seg -> normal_form (expand_segment ctx seg).
Proof.
  unfold absolute_form, normal_form, is_relative, is_shorthand, expand_segment.
  destruct seg as [cmd vs]. simpl. intros Hr.
  destruct (kind_of cmd) as [[[] []]|] eqn:E; try discriminate; shape vs; simpl;
    try done; try (by rewrite E);
    match goal with |- context [implied_ctrl ?a ?b] => by destruct (implied_ctrl a b) end.
Qed.

Lemma expand_segment_id ctx seg : is_shorthand seg = false -> expand_segment ctx seg = seg.
Proof.
  unfold is_shorthand, expand_segment. destruct seg as [cmd vs]. simpl.
  destruct (kind_of cmd) as [[[] []]|]; try done; shape vs; done.
Qed.

Lemma expand_from_form ctx p : Forall absolute_form p -> Forall normal_form (expand_from ctx p).
Proof.
  intros Hp. revert ctx. induction Hp as [|seg p Hseg _ IH]; intros ctx; simpl;
    constructor; [|done].
  by apply expand_segment_form.
Qed.

Lemma expand_from_id ctx p : Forall normal_form p -> expand_from ctx p = p.
Proof.
  intros Hp. revert ctx. induction Hp as [|seg p [_ Hseg] _ IH]; intros ctx; simpl; [done|].
  rewrite expand_segment_id by done. by rewrite IH.
Qed.

Lemma normalize_form p : Forall normal_form (normalize p).
Proof. apply expand_from_form, to_absolute_from_form. Qed.

Lemma normalize_id p : Forall normal_form p -> normalize p = p.
Proof.
  intros Hp. unfold normalize, toAbsolute. rewrite to_absolute_from_id.
  - by apply expand_from_id.
  - eapply Forall_impl; [exact Hp|]. by intros seg [? _].
Qed.

(** ** The curve converter *)

Lemma cubic_chunks_form vs : Forall curve_form (cubic_chunks vs).
Proof.
  assert (Hshort : forall short, Forall curve_form [Segment "C" short]).
  { intros. constructor; [apply cubic_curve_form|constructor]. }
  induction vs as [vs IH] using (induction_ltof1 _ (@length _)). unfold ltof in IH.
  destruct vs as [|a1 [|b1 [|a2 [|b2 [|a [|b rest]]]]]]; simpl; try done.
  constructor; [apply cubic_curve_form|]. apply IH. simpl. lia.
Qed.

Lemma curve_segment_form cur seg :
  normal_form seg -> Forall curve_form (curve_segment cur seg).
Proof.
  unfold normal_form, is_relative, is_shorthand, curve_segment.
  destruct seg as [cmd vs]. simpl. intros [Hr Hs].
  assert (Hone : forall ws, Forall curve_form [Segment "C" ws]).
  { intros. constructor; [apply cubic_curve_form|constructor]. }
  assert (Hsame : forall ws, is_relative (Segment cmd ws) = false).
  { intros. unfold is_relative. simpl. by destruct (kind_of cmd) as [[? []]|]. }
  destruct (kind_of cmd) as [[[] []]|] eqn:E; try discriminate; shape vs;
    try apply Hone; try apply cubic_chunks_form;
    (apply Forall_singleton; split; [apply Hsame|];
     unfold is_shorthand, is_convertible; simpl; rewrite E; by split).
Qed.

Lemma curve_segment_id cur seg : is_convertible seg = false -> curve_segment cur seg = [seg].
Proof.
  unfold is_convertible, curve_segment. destruct seg as [cmd vs]. simpl.
  destruct (kind_of cmd) as [[[] []]|]; try done; shape vs; done.
Qed.

Lemma curves_from_form cur p : Forall normal_form p -> Forall curve_form (curves_from cur p).
Proof.
  intros Hp. revert cur. induction Hp as [|seg p Hseg _ IH]; intros cur; simpl; [done|].
  apply Forall_app. split; [by apply curve_segment_form|done].
Qed.

Lemma curves_from_id cur p : Forall curve_form p -> curves_from cur p = p.
Proof.
  intros Hp. revert cur. induction Hp as [|seg p (_ & _ & Hseg) _ IH]; intros cur; simpl; [done|].
  rewrite curve_segment_id by done. simpl. by rewrite IH.
Qed.

Lemma drop_redundant_close_form (P : segment -> Prop) p :
  Forall P p -> Forall P (drop_redundant_close p).
Proof.
  intros Hp. unfold drop_redundant_close.
  destruct (reverse p) as [|close [|previous before]] eqn:E; try done.
  destruct (_ && _); [|done].
  apply Forall_reverse. apply Forall_reverse in Hp. rewrite E in Hp. by inversion Hp.
Qed.

Lemma drop_redundant_close_cases p :
  drop_redundant_close p = p \/
  exists previous before,
    is_kind KZ previous = false /\ drop_redundant_close p = reverse (previous :: before).
Proof.
  unfold drop_redundant_close.
  destruct (reverse p) as [|close [|previous before]]; auto.
  destruct (_ && _) eqn:Hc; auto. right. exists previous, before. split; [|done].
  apply andb_prop in Hc as [Hc _]. apply andb_prop in Hc as [Hc _].
  apply andb_prop in Hc as [_ Hz]. by apply negb_true_iff in Hz.
Qed.

Lemma drop_redundant_close_idempotent p :
  drop_redundant_close (drop_redundant_close p) = drop_redundant_close p.
Proof.
  destruct (drop_redundant_close_cases p) as [E|(previous & before & Hz & E)];
    rewrite E; [done|].
  unfold drop_redundant_close. rewrite reverse_involutive.
  destruct before as [|b before]; [done|]. unfold is_kind in *.
  by destruct (kind_of (command previous)) as [[[] ?]|].
Qed.

Lemma toCurve_form p : Forall curve_form (toCurve p).
Proof. apply drop_redundant_close_form, curves_from_form, normalize_form. Qed.

Lemma toCurve_id p : Forall curve_form p -> toCurve p = drop_redundant_close p.
Proof.
  intros Hp. unfold toCurve. rewrite normalize_id.
  - by rewrite curves_from_id.
  - eapply Forall_impl; [exact Hp|]. by intros seg (? & ? & _).
Qed.

(** C6.  ToAbsolute, Normalize and the curve converter are idempotent:
    applying each to its own output gives that output back. *)
Theorem converters_idempotent p :
  toAbsolute (toAbsolute p) = toAbsolute p /\
  normalize (normalize p) = normalize p /\
  toCurve (toCurve p) = toCurve p.
Proof.
  split; [|split].
  - apply to_absolute_from_id, to_absolute_from_form.
  - apply normalize_id, normalize_form.
  - rewrite toCurve_id by apply toCurve_form.
    apply drop_redundant_close_idempotent.
Qed.

End PipelineFacts.

(** * Properties of the scanner *)

Section ScannerFacts.
Context `{JsNumber}.

Lemma command_of_letter ch k relative :
  command_of ch = Some (k, relative) -> String ch "" = letter k relative.
Proof. apply kind_of_Some. Qed.

Lemma chunk_segments_well_formed fuel k relative vs :
  Forall well_formed (chunk_segments fuel (letter k relative) (arity k) vs).
Proof.
  revert vs. induction fuel as [|fuel IH]; intros vs; simpl; [constructor|].
  destruct (decide (arity k <= length vs)); [|constructor].
  constructor.
  - exists k, relative. split; [done|]. simpl. rewrite length_take. lia.
  - destruct (decide (arity k = 0)); [constructor|apply IH].
Qed.

Lemma finalizeSegment_segments path :
  Forall well_formed (segments path) -> Forall well_formed (segments (finalizeSegment path)).
Proof.
  intros Hp. unfold finalizeSegment. simpl. apply Forall_app. split; [done|].
  destruct (pathValue path !! segmentStart path) as [ch|]; [|constructor].
  destruct (command_of ch) as [[k relative]|] eqn:E; [|constructor].
  rewrite (command_of_letter _ _ _ E).
  assert (Hall : forall vs, Forall well_formed
            (chunk_segments (S (length (data path))) (letter k relative) (arity k) vs))
    by (intros; apply chunk_segments_well_formed).
  destruct k; try apply Hall.
  destruct (decide (2 < length (data path))); [|apply Hall].
  constructor.
  - exists KM, relative. split; [done|]. simpl. rewrite length_take. lia.
  - apply (chunk_segments_well_formed (S (length (data path))) KL relative).
Qed.

Lemma scanParams_segments arc i : forall path : PathParser,
  segments (scanParams arc i path) = segments path.
Proof.
  induction i as [|i IH]; intros path; simpl; [done|].
  match goal with |- context [failed ?q] => set (path1 := q) end.
  assert (E : segments path1 = segments path).
  { subst path1. unfold scanFlag, scanParam.
    destruct (_ && _); destruct (ahead path) as [|ch l]; simpl; try done;
      repeat case_match; done. }
  destruct (failed path1); [done|]. rewrite IH, <- E.
  unfold skipComma. destruct (ahead _) as [|ch l]; [done|].
  by destruct (bool_decide (ch = ","%char)).
Qed.

Lemma scanGroups_segments fuel arc n : forall path : PathParser,
  segments (scanGroups fuel arc n path) = segments path.
Proof.
  induction fuel as [|fuel IH]; intros path; simpl; [done|].
  pose proof (scanParams_segments arc n path) as E.
  destruct (failed _); [done|].
  destruct (ahead _) as [|ch l]; [done|]. destruct (isDigitStart ch); [|done].
  by rewrite IH.
Qed.

Lemma scanSegment_segments path :
  Forall well_formed (segments path) -> Forall well_formed (segments (scanSegment path)).
Proof.
  intros Hp. unfold scanSegment. destruct (ahead path) as [|ch l]; [done|].
  destruct (command_of ch) as [[k relative]|]; [|done].
  destruct (decide (arity k = 0)); apply finalizeSegment_segments; [done|].
  by rewrite scanGroups_segments.
Qed.

Lemma scanSegments_segments fuel : forall path : PathParser,
  Forall well_formed (segments path) -> Forall well_formed (segments (scanSegments fuel path)).
Proof.
  induction fuel as [|fuel IH]; intros path Hp; simpl.
  - by destruct (_ && _).
  - destruct (_ && _); [|done]. by apply IH, scanSegment_segments.
Qed.

Lemma scanned_well_formed text p :
  parsePathString text = inl p -> Forall well_formed p.
Proof.
  unfold parsePathString.
  match goal with |- context [failed ?q] => set (path := q) end.
  assert (Hp : Forall well_formed (segments path))
    by (apply scanSegments_segments; constructor).
  clearbody path. destruct (failed path); [done|]. by intros [= <-].
Qed.

(** C7.  When the scanner accepts a text, every segment of the path it
    returns carries exactly as many values as its command takes (A 7, C 6,
    S and Q 4, L, M and T 2, H and V 1, Z 0). *)
Theorem parsePathString_arity text p :
  parsePathString text = inl p ->
  Forall (fun seg => exists k relative,
            command seg = letter k relative /\ length (values seg) = arity k) p.
Proof. apply scanned_well_formed. Qed.

(** ** The fuel is never used up *)

Lemma steps_refl path : steps path path.
Proof. by repeat split. Qed.

Lemma steps_trans p1 p2 p3 : steps p1 p2 -> steps p2 p3 -> steps p1 p3.
Proof.
  intros (E1 & L1 & F1) (E2 & L2 & F2). split; [congruence|]. split; [lia|auto].
Qed.

Lemma skipSpaces_steps path : steps path (skipSpaces path).
Proof. unfold skipSpaces. repeat split; simpl; [lia|done]. Qed.

Lemma skipComma_steps path : steps path (skipComma path).
Proof.
  unfold skipComma. destruct (ahead path) as [|ch l]; [apply steps_refl|].
  destruct (bool_decide (ch = ","%char)); [|apply steps_refl].
  eapply steps_trans; [|apply skipSpaces_steps]. repeat split; simpl; [lia|done].
Qed.

Lemma numeral_length_positive l n : numeral_length l = inl n -> 1 <= n.
Proof.
  unfold numeral_length. intros E.
  repeat case_match; simplify_eq;
    repeat match goal with
           | Hz : bool_decide _ = false |- _ => apply bool_decide_eq_false in Hz
           end;
    simpl in *; lia.
Qed.

(** A value scanned without an error moved the cursor. *)
Lemma scanValue_steps (flag : bool) path :
  let path' := if flag then scanFlag path else scanParam path in
  steps path path' /\ (failed path = false -> failed path' = false -> index path < index path').
Proof.
  destruct flag; simpl.
  - unfold scanFlag. destruct (ahead path) as [|ch l].
    + split; [by repeat split|]. unfold failed. simpl. done.
    + destruct (_ || _); simpl.
      * split; [repeat split; simpl; [lia|done]|]. simpl. lia.
      * split; [by repeat split|]. unfold failed. simpl. done.
  - unfold scanParam. destruct (ahead path) as [|ch l].
    + split; [by repeat split|]. unfold failed. simpl. done.
    + destruct (numeral_length (ch :: l)) as [n|msg] eqn:E.
      * apply numeral_length_positive in E. split; [repeat split; simpl; [lia|done]|].
        simpl. lia.
      * split.
        { repeat split; simpl; [lia|]. intros _. unfold fueled. simpl.
          unfold numeral_length in E. repeat case_match; by simplify_eq. }
        unfold failed at 2. simpl. intros Hf Hf'.
        unfold numeral_length in E. repeat case_match; by simplify_eq.
Qed.

Lemma after_value_steps path :
  steps path (skipComma (skipSpaces (push_param path))) /\
  failed (skipComma (skipSpaces (push_param path))) = failed path.
Proof.
  split.
  - eapply steps_trans; [|apply skipComma_steps].
    eapply steps_trans; [|apply skipSpaces_steps]. by repeat split.
  - unfold skipComma. destruct (ahead _) as [|ch l]; [done|].
    by destruct (bool_decide (ch = ","%char)).
Qed.

Lemma scanParams_steps arc i : forall path : PathParser,
  steps path (scanParams arc i path) /\
  (0 < i -> failed path = false -> failed (scanParams arc i path) = false ->
   index path < index (scanParams arc i path)).
Proof.
  induction i as [|i IH]; intros path; simpl; [split; [apply steps_refl|lia]|].
  match goal with |- context [failed ?p] =>
    match p with (if ?b then _ else _) => destruct (scanValue_steps b path) as [Hs Hlt] end
  end.
  simpl in Hs, Hlt.
  match goal with |- context [failed ?p] => set (path1 := p) in * end.
  destruct (failed path1) eqn:Hf1.
  - split; [done|]. intros _ Hf Hf'. congruence.
  - destruct (after_value_steps path1) as [Hs2 Hf2].
    destruct (IH (skipComma (skipSpaces (push_param path1)))) as [Hs3 _].
    split; [by repeat (eapply steps_trans; [eassumption|])|].
    intros _ Hf _. specialize (Hlt Hf eq_refl).
    destruct Hs2 as (_ & ? & _), Hs3 as (_ & ? & _). lia.
Qed.

Lemma ahead_nonempty path ch l : ahead path = ch :: l -> index path < max path.
Proof.
  unfold ahead, max. intros E.
  destruct (decide (index path < length (pathValue path))); [done|].
  rewrite drop_ge in E by lia. done.
Qed.

Lemma scanGroups_steps arc n : forall fuel (path : PathParser),
  0 < n -> failed path = false -> max path - index path < fuel ->
  steps path (scanGroups fuel arc n path) /\
  (failed (scanGroups fuel arc n path) = false -> index path < index (scanGroups fuel arc n path)).
Proof.
  induction fuel as [|fuel IH]; intros path Hn Hf Hfuel; [lia|]. simpl.
  destruct (scanParams_steps arc n path) as [Hs Hlt].
  set (path1 := scanParams arc n path) in *.
  destruct (failed path1) eqn:Hf1; [split; [done|congruence]|].
  specialize (Hlt Hn Hf eq_refl).
  destruct (ahead path1) as [|ch l] eqn:Ea; [by split|].
  destruct (isDigitStart ch); [|by split].
  apply ahead_nonempty in Ea. destruct Hs as (Et & Hle & Hfl).
  assert (Hm : max path1 = max path) by (unfold max; by rewrite Et).
  destruct (IH path1 Hn Hf1 ltac:(lia)) as [(Et' & Hle' & Hfl') Hlt'].
  split; [|intros Hf'; specialize (Hlt' Hf'); lia].
  split; [congruence|]. split; [lia|auto].
Qed.

Lemma finalizeSegment_steps path :
  steps path (finalizeSegment path) /\ failed (finalizeSegment path) = failed path.
Proof. by repeat split. Qed.

Lemma scanSegment_steps path :
  failed path = false ->
  steps path (scanSegment path) /\
  (index path < max path -> failed (scanSegment path) = false ->
   index path < index (scanSegment path)).
Proof.
  intros Hf. unfold scanSegment. destruct (ahead path) as [|ch l] eqn:Ea.
  { split; [apply steps_refl|]. intros Hlt _. unfold ahead, max in *.
    apply (f_equal length) in Ea. rewrite length_drop in Ea. simpl in Ea. lia. }
  destruct (command_of ch) as [[k relative]|].
  2:{ split; [by repeat split|]. unfold failed. simpl. done. }
  match goal with |- context [skipSpaces ?p] => set (path0 := p) end.
  assert (Hs0 : steps path (skipSpaces path0) /\ index path < index (skipSpaces path0) /\
                failed (skipSpaces path0) = false).
  { split; [|split; [simpl; lia|done]].
    eapply steps_trans; [|apply skipSpaces_steps]. repeat split; simpl; [lia|done]. }
  destruct Hs0 as (Hs0 & Hlt0 & Hf0).
  destruct (decide (arity k = 0)).
  - destruct (finalizeSegment_steps (skipSpaces path0)) as [Hs1 Hf1].
    split; [by eapply steps_trans|]. intros _ _. destruct Hs1 as (_ & ? & _). lia.
  - assert (Hm : max (skipSpaces path0) = max path) by done.
    destruct (scanGroups_steps (isArcCommand ch) (arity k) (S (max path)) (skipSpaces path0))
      as [Hs1 _]; [lia|done|lia|].
    match goal with |- context [finalizeSegment ?p] =>
      destruct (finalizeSegment_steps p) as [Hs2 _] end.
    split; [by repeat (eapply steps_trans; [eassumption|])|].
    intros _ _. destruct Hs1 as (_ & ? & _), Hs2 as (_ & ? & _). lia.
Qed.

Lemma scanSegments_fueled : forall fuel (path : PathParser),
  fueled path -> max path - index path < fuel -> fueled (scanSegments fuel path).
Proof.
  induction fuel as [|fuel IH]; intros path Hfl Hfuel; [lia|]. simpl.
  destruct (bool_decide (index path < max path)) eqn:Hlt; [|done].
  apply bool_decide_eq_true in Hlt. destruct (failed path) eqn:Hf; [done|]. simpl.
  destruct (scanSegment_steps path Hf) as [(Et & Hle & Hfl') Hprog].
  assert (Hm : max (scanSegment path) = max path) by (unfold max; by rewrite Et).
  destruct (failed (scanSegment path)) eqn:Hf'.
  - destruct fuel; simpl; rewrite Hf', andb_false_r; auto.
  - apply IH; [auto|]. specialize (Hprog Hlt eq_refl). lia.
Qed.

(** Whatever the text, the scanner ends by itself: it accepts the text or
    reports an error of the grammar. *)
Lemma parsePathString_fueled text e :
  parsePathString text = inr e -> message e <> "out of fuel".
Proof.
  unfold parsePathString.
  match goal with |- context [failed ?p] => set (path := p) end.
  assert (Hp : fueled path).
  { apply scanSegments_fueled.
    - apply skipSpaces_steps. unfold fueled. done.
    - unfold max. simpl. lia. }
  clearbody path. destruct (failed path); [|done]. by intros [= <-].
Qed.

End ScannerFacts.

(** * The sample instance keeps the contracts *)

Section SampleFacts.
#[local] Existing Instances Sample.exact Sample.chords Sample.collaborators.

Lemma cubic_chunks_commands (vs : list num) :
  Forall (fun piece => command piece = "C") (cubic_chunks vs).
Proof.
  induction vs as [vs IH] using (induction_ltof1 _ (@length _)). unfold ltof in IH.
  destruct vs as [|a1 [|b1 [|a2 [|b2 [|a [|b rest]]]]]]; simpl;
    repeat constructor. apply IH. simpl. lia.
Qed.

Lemma js_get_Some {A} (l : list (option A)) i a : js_get l i = Some a -> l !! i = Some (Some a).
Proof. unfold js_get. destruct (l !! i) as [[b|]|]; simpl; congruence. Qed.

Lemma sample_fixArc_splice path cmds i seg :
  js_get path i = Some seg ->
  fst (fixArc path cmds i) = take i path ++ (Some <$> Sample.pieces seg) ++ drop (S i) path.
Proof.
  intros Hg. simpl. unfold Sample.fix_arc, Sample.pieces. rewrite Hg.
  destruct (decide (6 < length (values seg))); [done|]. simpl.
  symmetry. by apply take_drop_middle, js_get_Some.
Qed.

Lemma sample_arcChunks_shape seg :
  Sample.pieces seg = [seg] \/
  (Sample.pieces seg <> [] /\ Forall (fun piece => command piece = "C") (Sample.pieces seg)).
Proof.
  unfold Sample.pieces. destruct (decide (6 < length (values seg))) as [Hlen|]; [|by left].
  right. split; [|apply cubic_chunks_commands].
  destruct (values seg) as [|a1 [|b1 [|a2 [|b2 [|a [|b rest]]]]]]; simpl in *; done || lia.
Qed.

Lemma sample_segmentToCubic_cubic seg p :
  command (fst (segmentToCubic seg p)) = "C" \/
  command (fst (segmentToCubic seg p)) = "M" \/
  (fst (segmentToCubic seg p) = seg /\ command seg <> "A").
Proof.
  simpl. unfold Sample.to_cubic. simpl. destruct seg as [cmd vs]. simpl.
  destruct (kind_of cmd) as [[k relative]|] eqn:E.
  - destruct (decide ((k, relative) = (KA, false))) as [[= -> ->]|Hne]; [by left|].
    assert (Hcmd : cmd <> "A").
    { intros ->. apply Hne. by inversion E. }
    destruct k, relative; try done; shape vs; simpl; auto.
  - right. right. split; [done|]. by intros ->.
Qed.

Lemma sample_segmentToCubic_stable seg p :
  segmentToCubic seg (snd (segmentToCubic seg p)) = segmentToCubic seg p.
Proof. reflexivity. Qed.

Lemma to_absolute_from_length cur (p : PathArray) : length (to_absolute_from cur p) = length p.
Proof. revert cur. induction p as [|seg p IH]; intros cur; simpl; [done|]. by rewrite IH. Qed.

Lemma expand_from_length ctx (p : PathArray) : length (expand_from ctx p) = length p.
Proof. revert ctx. induction p as [|seg p IH]; intros ctx; simpl; [done|]. by rewrite IH. Qed.

Lemma sample_normalizePath_length p : length (normalizePath p) = length p.
Proof.
  simpl. unfold normalize, toAbsolute. by rewrite expand_from_length, to_absolute_from_length.
Qed.

Lemma is_absolute_letter k : is_absolute (letter k false) = true.
Proof. by destruct k. Qed.

Lemma is_absolute_kind cmd : is_absolute cmd = true -> exists k, kind_of cmd = Some (k, false).
Proof.
  unfold is_absolute. intros Hin%bool_decide_eq_true.
  repeat (apply elem_of_cons in Hin as [->|Hin]; [by eexists|]). by apply elem_of_nil in Hin.
Qed.

Lemma to_absolute_segment_absolute cur seg :
  has_arity seg = true -> is_absolute (command (to_absolute_segment cur seg)) = true.
Proof.
  unfold has_arity, paramsCount, to_absolute_segment. intros Ha%bool_decide_eq_true.
  destruct (kind_of (command seg)) as [[k relative]|] eqn:E; [|done].
  destruct relative; simpl; [apply is_absolute_letter|].
  rewrite (kind_of_Some _ _ _ E). apply is_absolute_letter.
Qed.

Lemma to_absolute_from_absolute cur p :
  forallb has_arity p = true ->
  Forall (fun seg => is_absolute (command seg) = true) (to_absolute_from cur p).
Proof.
  revert cur. induction p as [|seg p IH]; intros cur; simpl; [constructor|].
  intros [Hseg Hp]%andb_prop. constructor; [by apply to_absolute_segment_absolute|by apply IH].
Qed.

Lemma scanned_has_arity text p :
  parsePathString text = inl p -> forallb has_arity p = true.
Proof.
  intros Hp%scanned_well_formed. apply forallb_forall. intros seg Hin.
  rewrite Forall_forall in Hp. destruct (Hp seg) as (k & relative & Hc & Hlen).
  { by apply list_elem_of_In. }
  unfold has_arity, paramsCount. apply bool_decide_eq_true.
  rewrite Hc, kind_of_letter. simpl. f_equal. symmetry. exact Hlen.
Qed.

Lemma sample_pathToAbsolute_absolute path absolutePath :
  pathToAbsolute path = Some absolutePath ->
  Forall (fun seg => is_absolute (command seg) = true) absolutePath.
Proof.
  simpl. unfold Sample.to_absolute. destruct path as [d|p].
  - destruct (parsePathString d) as [p|] eqn:E; [|done]. intros [= <-].
    apply to_absolute_from_absolute. by eapply scanned_has_arity.
  - destruct (forallb has_arity p) eqn:E; [|done]. intros [= <-].
    by apply to_absolute_from_absolute.
Qed.

Lemma sample_normalizePath_absolute (p : PathArray) :
  Forall (fun seg => is_absolute (command seg) = true) p ->
  Forall (fun seg => is_absolute (command seg) = true) (normalizePath p).
Proof.
  intros Hp. simpl. unfold normalize, toAbsolute.
  assert (Habs : Forall absolute_form p).
  { eapply Forall_impl; [exact Hp|]. intros seg [k Hk]%is_absolute_kind.
    unfold absolute_form, is_relative. by rewrite Hk. }
  rewrite to_absolute_from_id by done.
  generalize context0. induction Hp as [|seg p Hseg Hp IH]; intros ctx; simpl; [constructor|].
  inversion Habs; subst. constructor; [|by apply IH].
  unfold expand_segment. destruct seg as [cmd vs]. simpl in *.
  destruct (kind_of cmd) as [[[] []]|]; try done; shape vs; try done;
    match goal with |- context [implied_ctrl ?a ?b] => by destruct (implied_ctrl a b) end.
Qed.

Lemma sample_getSVGMatrix_origin_only o : isIdentity (getSVGMatrix (origin_only o)) = true.
Proof. reflexivity. Qed.


End SampleFacts.

(** * The theorems at concrete inputs *)

Section Witnesses.
#[local] Existing Instances Sample.exact Sample.chords Sample.collaborators Sample.on_store.

Lemma transformPath_identity_witness :
  transformPath 0 (PathString "M1 2l3 4h5") (Some (TrObject empty)) =
  Returned [Segment "M" [q 1; q 2]; Segment "L" [q 4; q 6]; Segment "H" [q 9]].
Proof. apply transformPath_identity; reflexivity. Defined.

Lemma transformPath_default_origin_witness :
  transformPath 9 (PathSegments sample_path) (Some (TrObject shift)) =
  transformPath 9 (PathSegments sample_path)
    (Some (TrObject (assign_origin shift (zero, zero, zero)))).
Proof.
  apply (transformPath_default_origin sample_getSVGMatrix_origin_only). reflexivity.
Defined.

Lemma transformPath_absolute_witness :
  (exists fuel out,
     transformPath fuel (PathString "m1 2l3 4a1 1 0 1 0 6 6z") (Some (TrObject shift))
       = Returned out) /\
  (forall fuel out,
     transformPath fuel (PathString "m1 2l3 4a1 1 0 1 0 6 6z") (Some (TrObject shift))
       = Returned out ->
     Forall (fun seg => is_absolute (command seg) = true) out).
Proof.
  apply (transformPath_absolute Sample.pieces sample_fixArc_splice sample_arcChunks_shape
           sample_segmentToCubic_cubic sample_segmentToCubic_stable
           sample_normalizePath_length sample_pathToAbsolute_absolute
           sample_normalizePath_absolute
           (PathString "m1 2l3 4a1 1 0 1 0 6 6z") (Some (TrObject shift))
           [Segment "M" [q 1; q 2]; Segment "L" [q 4; q 6];
            Segment "A" [q 1; q 1; q 0; q 1; q 0; q 10; q 12]; Segment "Z" []]
           (Some (Some shift_matrix, (zero, zero, zero))));
    reflexivity.
Defined.

Lemma parsePathString_arity_witness :
  Forall (fun seg => exists k relative,
            command seg = letter k relative /\ length (values seg) = arity k)
    [Segment "M" [q 0; q 0]; Segment "L" [q 1; q 1];
     Segment "a" [q 5; q 5; q 0; q 1; q 1; Some (-7 # 2)%Q; Some (1 # 2)%Q];
     Segment "z" []].
Proof. apply (parsePathString_arity "M0 0 1 1a5 5 0 11-3.5.5z"). reflexivity. Defined.

End Witnesses.

(** * The two models side by side *)

Section Examples.
#[local] Existing Instances Sample.exact Sample.chords Sample.collaborators.

(** On the sample store the array the store model returns holds the path
    the value model returns. *)
Lemma store_run_agrees :
  (fst (@transformPath_st _ _ Sample.on_store 9 1%positive (Some (TrObject shift))
          caller_store)
     ≫= fun out => fst (Sample.read_path out
          (snd (@transformPath_st _ _ Sample.on_store 9 1%positive
                  (Some (TrObject shift)) caller_store)))) =
  transformPath 9
    (PathSegments [Segment "M" [q 1; q 2]; Segment "L" [q 4; q 6];
                   Segment "A" [q 1; q 1; q 0; q 1; q 0; q 10; q 12]])
    (Some (TrObject shift)).
Proof. reflexivity. Qed.

End Examples.

(** * The loop and the projection, entry by entry *)

Section Entries.
Context `{JsNumber} `{!Collaborators}.

Lemma bind_Thrown {A B} (m : outcome A) (f : A -> outcome B) e :
  m ≫= f = Thrown e -> m = Thrown e \/ exists a, m = Returned a /\ f a = Thrown e.
Proof.
  destruct m as [a|e'|]; simpl; intros E; try discriminate.
  - right. exists a. split; [reflexivity|exact E].
  - left. by injection E as ->.
Qed.

(** ** One turn of the loop *)

(** Lines 74-112 at a slot that holds no arc: the arrays stay as they are. *)
Lemma loop_body_plain i st la ln sa sn :
  absolutePath st = Some <$> la -> normalizedPath st = Some <$> ln ->
  la !! i = Some sa -> ln !! i = Some sn -> command sa <> "A" ->
  loop_body i st =
    Returned (LoopState (absolutePath st) (normalizedPath st)
                (js_set (allPathCommands st) i (command sa)) (set_xy (params st) sn)
                (command sa) (transformedPath st ++ [entry_of sa sn]) (ii st)).
Proof.
  intros Ea En Hsa Hsn HA. unfold loop_body. rewrite Ea, En, !js_get_dense, Hsa. simpl.
  destruct (decide (command sa = "A")); [done|]. simpl.
  by rewrite !js_get_dense, Hsn, Hsa.
Qed.

(** Where [normalizedPath] has no slot [i], line 86 or line 98 reads a
    property of [undefined]. *)
Lemma loop_body_short i st la ln sa :
  absolutePath st = Some <$> la -> normalizedPath st = Some <$> ln ->
  la !! i = Some sa -> ln !! i = None ->
  loop_body i st = Thrown TypeError.
Proof.
  intros Ea En Hsa Hsn. unfold loop_body. rewrite Ea, En, !js_get_dense, Hsa. simpl.
  destruct (decide (command sa = "A")); simpl.
  - by rewrite Hsn.
  - by rewrite !js_get_dense, Hsn.
Qed.

Lemma set_xy_close p seg : values seg = [] -> set_xy p seg = params_of_close p.
Proof.
  intros Hv. unfold set_xy, params_of_close, seg_length, seg_num, js_or. rewrite Hv. simpl.
  by destruct (truthy NaN).
Qed.

(** ** The loop over a path without arcs *)

Lemma loop_plain fuel : forall i st la ln,
  absolutePath st = Some <$> la -> normalizedPath st = Some <$> ln ->
  ii st = length la -> length la <= length ln ->
  Forall (fun a => command a <> "A") la ->
  length la - i <= fuel ->
  exists st', loop fuel i st = Returned st' /\
    transformedPath st' = transformedPath st ++ zip_with entry_of (drop i la) (drop i ln).
Proof.
  induction fuel as [|fuel IH]; intros i st la ln Ea En Hii Hlen Hplain Hfuel.
  - exists st. simpl. rewrite Hii. destruct (decide (i < length la)); [lia|].
    split; [done|]. rewrite (drop_ge la) by lia. simpl. by rewrite app_nil_r.
  - simpl. rewrite Hii. destruct (decide (i < length la)) as [Hi|Hi].
    + destruct (lookup_lt_is_Some_2 la i Hi) as [sa Hsa].
      destruct (lookup_lt_is_Some_2 ln i ltac:(lia)) as [sn Hsn].
      assert (HA : command sa <> "A").
      { rewrite Forall_forall in Hplain. by eapply Hplain, list_elem_of_lookup_2. }
      rewrite (loop_body_plain i st la ln sa sn) by done. simpl.
      match goal with
      | |- context [loop fuel (S i) ?st1] =>
          destruct (IH (S i) st1 la ln) as (st' & Hl & Htp); [done..|lia|]
      end.
      rewrite Hl. exists st'. split; [done|]. rewrite Htp. simpl.
      rewrite (drop_S la sa i) by done. rewrite (drop_S ln sn i) by done. simpl.
      by rewrite <- app_assoc.
    + exists st. split; [done|]. rewrite (drop_ge la) by lia. simpl. by rewrite app_nil_r.
Qed.

Lemma loop_short fuel : forall i st la ln,
  absolutePath st = Some <$> la -> normalizedPath st = Some <$> ln ->
  ii st = length la -> length ln < length la -> i <= length ln ->
  (forall j a, j < length ln -> la !! j = Some a -> command a <> "A") ->
  length ln - i < fuel ->
  loop fuel i st = Thrown TypeError.
Proof.
  induction fuel as [|fuel IH]; intros i st la ln Ea En Hii Hlen Hi Hplain Hfuel; [lia|].
  simpl. rewrite Hii. destruct (decide (i < length la)); [|lia].
  destruct (lookup_lt_is_Some_2 la i ltac:(lia)) as [sa Hsa].
  destruct (decide (i < length ln)) as [Hin|Hin].
  - destruct (lookup_lt_is_Some_2 ln i Hin) as [sn Hsn].
    rewrite (loop_body_plain i st la ln sa sn) by eauto. simpl.
    apply (IH (S i) _ la ln); simpl; try done; lia.
  - rewrite (loop_body_short i st la ln sa); try done.
    apply lookup_ge_None. lia.
Qed.

(** ** What the projection does to the number of values *)

Lemma project_values_length m o vs : forall xy,
  length (fst (project_values m o vs xy)) = projected_count (length vs).
Proof.
  assert (forall vs : list num,
            (forall xy, length (fst (project_values m o vs xy))
                        = projected_count (length vs)) /\
            (forall a xy, length (fst (project_values m o (a :: vs) xy))
                          = projected_count (length (a :: vs)))) as Hboth.
  { clear vs. induction vs as [|b vs [IH1 IH2]]; split.
    - done.
    - intros a xy. simpl. by destruct (projection2d m (a, NaN) o).
    - done.
    - intros a xy. simpl. destruct (projection2d m (a, b) o) as [px py].
      specialize (IH1 (px, py)).
      destruct (project_values m o vs (px, py)) as [rest' xy']. simpl in *.
      rewrite IH1. unfold projected_count. simpl. lia. }
  apply Hboth.
Qed.

Lemma project_entry_shape m o xy e :
  if is_line_command (c e)
  then (command (fst (project_entry m o xy e)) = "L" /\
        length (values (fst (project_entry m o xy e))) = 2) \/
       ((command (fst (project_entry m o xy e)) = "H" \/
         command (fst (project_entry m o xy e)) = "V") /\
        length (values (fst (project_entry m o xy e))) = 1)
  else command (fst (project_entry m o xy e)) = command (s e) /\
       length (values (fst (project_entry m o xy e)))
         = projected_count (length (values (s e))).
Proof.
  unfold project_entry. destruct (is_line_command (c e)).
  - destruct (projection2d m (x e, y e) o) as [lx ly]. simpl.
    destruct (strict_eq (fst xy) lx), (strict_eq (snd xy) ly); simpl; auto.
  - pose proof (project_values_length m o (values (s e)) xy) as Hl.
    by destruct (project_values m o (values (s e)) xy).
Qed.

Lemma zip_with_entry_lookup (la ln : list segment) k a :
  length la <= length ln -> la !! k = Some a ->
  exists n, ln !! k = Some n /\ zip_with entry_of la ln !! k = Some (entry_of a n).
Proof.
  intros Hlen Ha.
  destruct (lookup_lt_is_Some_2 ln k) as [n Hn].
  { apply lookup_lt_Some in Ha. lia. }
  exists n. split; [done|]. rewrite lookup_zip_with, Ha. simpl. by rewrite Hn.
Qed.



(** X2.  A path without arcs under a matrix that is not the identity: the
    call returns once the fuel covers the segments, the result has one
    segment for each segment of the absolute path, an L, H or V segment
    comes back as an L of two values or an H or V of one, and any other
    segment keeps its command and its number of values, made even. *)
Theorem transformPath_arc_free fuel path transform absolutePath m o :
  pathToAbsolute path = Some absolutePath ->
  select_matrix transform = Returned (Some (Some m, o)) ->
  isIdentity m = false ->
  Forall (fun a => command a <> "A") absolutePath ->
  length absolutePath <= length (normalizePath absolutePath) ->
  length absolutePath <= fuel ->
  exists out,
    transformPath fuel path transform = Returned out /\
    length out = length absolutePath /\
    forall k a, absolutePath !! k = Some a ->
      exists seg, out !! k = Some seg /\
        if is_line_command (command a)
        then (command seg = "L" /\ length (values seg) = 2) \/
             ((command seg = "H" \/ command seg = "V") /\ length (values seg) = 1)
        else command seg = command a /\
             length (values seg) = projected_count (length (values a)).
Proof.
  intros Habs Hsel Hid Hplain Hlen Hfuel.
  destruct (loop_plain fuel 0 (loop_init absolutePath (normalizePath absolutePath))
              absolutePath (normalizePath absolutePath))
    as (st & Hl & Htp); try done; [simpl; lia|].
  simpl in Htp. rewrite !drop_0 in Htp.
  exists (project_all m o (zero, zero) (transformedPath st)). split; [|split].
  - unfold transformPath. rewrite Habs, Hsel. simpl. by rewrite Hid, Hl.
  - rewrite project_all_length, Htp, length_zip_with. lia.
  - intros k a Ha.
    destruct (zip_with_entry_lookup _ _ k a Hlen Ha) as (n & _ & Hn).
    rewrite <- Htp in Hn.
    eexists. split; [by apply project_all_lookup|].
    apply (project_entry_shape m o _ (entry_of a n)).
Qed.

(** X7.  When [normalizePath] hands back fewer segments than the absolute
    path has, and no arc stands before the first missing one, a call with a
    matrix that is not the identity ends in a TypeError: the loop runs to
    the length of [absolutePath] and reads [normalizedPath[i]] beyond its
    end. *)
Theorem transformPath_short_normalized fuel path transform absolutePath m o :
  pathToAbsolute path = Some absolutePath ->
  select_matrix transform = Returned (Some (Some m, o)) ->
  isIdentity m = false ->
  length (normalizePath absolutePath) < length absolutePath ->
  Forall (fun a => command a <> "A")
    (take (length (normalizePath absolutePath)) absolutePath) ->
  length (normalizePath absolutePath) < fuel ->
  transformPath fuel path transform = Thrown TypeError.
Proof.
  intros Habs Hsel Hid Hlen Hplain Hfuel.
  unfold transformPath. rewrite Habs, Hsel. simpl. rewrite Hid.
  rewrite (loop_short fuel 0 _ absolutePath (normalizePath absolutePath)); try done;
    [lia| |lia].
  intros j a Hj Ha. rewrite Forall_forall in Hplain. apply Hplain.
  apply list_elem_of_lookup. exists j. by rewrite lookup_take_lt.
Qed.


(** ** The loop over any path *)

Lemma loop_fuel_mono fuel : forall fuel' i st st',
  loop fuel i st = Returned st' -> fuel <= fuel' -> loop fuel' i st = Returned st'.
Proof.
  induction fuel as [|fuel IH]; intros fuel' i st st'; simpl.
  - case_decide; [done|]. intros [= <-] _. destruct fuel'; simpl; by case_decide.
  - case_decide as Hi.
    + intros (st1 & Hb & Hl)%bind_Returned Hf.
      destruct fuel' as [|fuel']; [lia|]. simpl. destruct (decide (i < ii st)); [|done].
      rewrite Hb. simpl. apply IH; [done|lia].
    + intros [= <-] _. destruct fuel'; simpl; by destruct (decide (i < ii st)).
Qed.

Lemma piece_entries_length p pieces :
  length (fst (piece_entries p pieces)) = length pieces.
Proof.
  revert p. induction pieces as [|piece rest IH]; intros p; [done|]. simpl.
  specialize (IH (set_xy p piece)).
  destruct (piece_entries (set_xy p piece) rest). simpl in *. by rewrite IH.
Qed.

Section ClosedForm.
(** The collaborators as in the section on the loop: [fixArc] splices the
    pieces [arcChunks] cuts the segment of slot [i] into, the pieces are the
    segment itself or cubic segments, a repeated call of [segmentToCubic]
    gives what the first gave, and [normalizePath] keeps the length. *)
Variable arcChunks : segment -> list segment.
Hypothesis fixArc_splice : forall path cmds i seg,
  js_get path i = Some seg ->
  fst (fixArc path cmds i) = take i path ++ (Some <$> arcChunks seg) ++ drop (S i) path.
Hypothesis arcChunks_shape : forall seg,
  arcChunks seg = [seg] \/
  (arcChunks seg <> [] /\ Forall (fun piece => command piece = "C") (arcChunks seg)).
Hypothesis segmentToCubic_stable : forall seg p,
  segmentToCubic seg (snd (segmentToCubic seg p)) = segmentToCubic seg p.
Hypothesis normalizePath_length : forall p, length (normalizePath p) = length p.
(** "Converts any segment to C (cubic-bezier)": of an arc [segmentToCubic]
    makes a cubic segment. *)
Hypothesis segmentToCubic_arc : forall seg p,
  command seg = "A" -> command (fst (segmentToCubic seg p)) = "C".

(** Lines 74-112 at a slot that holds an arc. *)
Lemma loop_body_arc i st la ln sa sn r p1 piece rest :
  absolutePath st = Some <$> la -> normalizedPath st = Some <$> ln ->
  length la = length ln ->
  la !! i = Some sa -> ln !! i = Some sn -> command sa = "A" ->
  segmentToCubic sn (params st) = (r, p1) -> arcChunks r = piece :: rest ->
  exists cmds,
    loop_body i st =
      Returned (LoopState (Some <$> (take i la ++ piece :: rest ++ drop (S i) la))
                  (Some <$> (take i ln ++ piece :: rest ++ drop (S i) ln))
                  cmds (set_xy p1 piece) "A"
                  (transformedPath st ++ [entry_of piece piece])
                  (length (take i la ++ piece :: rest ++ drop (S i) la))).
Proof using fixArc_splice arcChunks_shape segmentToCubic_stable.
  intros Ea En Hlen Hsa Hsn HA Hr Hc.
  assert (Hi : i < length la) by (by eapply lookup_lt_Some).
  unfold loop_body. rewrite Ea, En, !js_get_dense, Hsa. simpl. rewrite HA.
  destruct (decide ("A" = "A")); [|done]. simpl. rewrite Hsn. simpl.
  pose proof (segmentToCubic_stable sn (params st)) as Hst.
  rewrite Hr in *. simpl in Hst. rewrite !Hst.
  destruct (fixArc_after_set arcChunks fixArc_splice arcChunks_shape
              (Some <$> la) (js_set (allPathCommands st) i "A") i r)
    as (piece0 & rest0 & Hc0 & Eabs & Hga).
  rewrite Hc in Hc0. injection Hc0 as <- <-.
  destruct (fixArc (js_set (Some <$> la) i r) _ i) as [abs' cmds1]. simpl in Eabs, Hga.
  destruct (fixArc_after_set arcChunks fixArc_splice arcChunks_shape
              (Some <$> ln) cmds1 i r)
    as (piece0 & rest0 & Hc0 & Enorm & Hgn).
  rewrite Hc in Hc0. injection Hc0 as <- <-.
  destruct (fixArc (js_set (Some <$> ln) i r) cmds1 i) as [norm' cmds2].
  simpl in Enorm, Hgn. simpl. rewrite Hgn, Hga. simpl.
  rewrite splice_dense in Eabs by done. rewrite splice_dense in Enorm by lia.
  exists cmds2. subst abs' norm'. do 2 f_equal.
  rewrite !length_fmap, !length_app. simpl.
  rewrite !length_app, !length_take, !length_drop. lia.
Qed.

Lemma pieces_no_arc r piece rest :
  arcChunks r = piece :: rest -> Forall (fun a => command a <> "A") rest.
Proof using arcChunks_shape.
  intros Hc. destruct (arcChunks_shape r) as [E|[_ Hall]].
  - rewrite Hc in E. injection E as _ ->. constructor.
  - rewrite Hc in Hall. inversion Hall as [|? ? _ Hrest]; subst.
    eapply Forall_impl; [exact Hrest|]. simpl. by intros a ->.
Qed.

(** Pieces at the head of both arrays are read as the segments they are. *)
Lemma entries_of_pieces pieces : forall p la ln,
  Forall (fun a => command a <> "A") pieces ->
  entries_of arcChunks p (pieces ++ la) (pieces ++ ln) =
  fst (piece_entries p pieces) ++ entries_of arcChunks (snd (piece_entries p pieces)) la ln.
Proof.
  induction pieces as [|piece rest IH]; intros p la ln Hall; [done|].
  inversion Hall as [|? ? HA Hrest]; subst. simpl.
  destruct (decide (command piece = "A")); [done|].
  rewrite IH by done. by destruct (piece_entries (set_xy p piece) rest).
Qed.

Lemma loop_entries fuel : forall i st la ln,
  absolutePath st = Some <$> la -> normalizedPath st = Some <$> ln ->
  length la = length ln -> ii st = length la ->
  length (entries_of arcChunks (params st) (drop i la) (drop i ln)) <= fuel ->
  exists st', loop fuel i st = Returned st' /\
    transformedPath st' =
      transformedPath st ++ entries_of arcChunks (params st) (drop i la) (drop i ln).
Proof using fixArc_splice arcChunks_shape segmentToCubic_stable.
  induction fuel as [|fuel IH]; intros i st la ln Ea En Hlen Hii Hfuel;
    (destruct (decide (i < length la)) as [Hi|Hi];
     [|exists st; rewrite (drop_ge la) by lia; simpl; rewrite Hii;
       destruct (decide (i < length la)); [lia|]; by rewrite app_nil_r]);
    destruct (lookup_lt_is_Some_2 la i Hi) as [sa Hsa];
    destruct (lookup_lt_is_Some_2 ln i ltac:(lia)) as [sn Hsn];
    rewrite (drop_S la sa i), (drop_S ln sn i) in * by done;
    simpl in Hfuel |- *; rewrite Hii;
    (destruct (decide (i < length la)); [|lia]);
    destruct (decide (command sa = "A")) as [HA|HA].
  - destruct (segmentToCubic sn (params st)) as [r p1].
    pose proof (arcChunks_nonempty arcChunks arcChunks_shape r) as Hne.
    destruct (arcChunks r) as [|piece rest]; [done|]. simpl in Hfuel.
    destruct (piece_entries (set_xy p1 piece) rest). simpl in Hfuel. lia.
  - simpl in Hfuel. lia.
  - destruct (segmentToCubic sn (params st)) as [r p1] eqn:Hr.
    pose proof (arcChunks_nonempty arcChunks arcChunks_shape r) as Hne.
    destruct (arcChunks r) as [|piece rest] eqn:Hc; [done|]. simpl in Hfuel |- *.
    destruct (loop_body_arc i st la ln sa sn r p1 piece rest) as [cmds Hb]; try done.
    rewrite Hb. simpl.
    set (st1 := LoopState _ _ cmds _ _ _ _).
    destruct (IH (S i) st1 (take i la ++ piece :: rest ++ drop (S i) la)
                (take i ln ++ piece :: rest ++ drop (S i) ln)) as (st' & Hl & Htp);
      try done.
    { rewrite !length_app. simpl. rewrite !length_app, !length_take, !length_drop. lia. }
    { simpl. rewrite !drop_spliced by lia.
      rewrite entries_of_pieces by (by eapply pieces_no_arc).
      destruct (piece_entries (set_xy p1 piece) rest). simpl in *.
      rewrite length_app in *. lia. }
    exists st'. split; [done|]. rewrite Htp. simpl. rewrite !drop_spliced by lia.
    rewrite entries_of_pieces by (by eapply pieces_no_arc).
    destruct (piece_entries (set_xy p1 piece) rest). simpl.
    by rewrite <- app_assoc.
  - rewrite (loop_body_plain i st la ln sa sn) by done. simpl.
    match goal with
    | |- context [loop fuel (S i) ?st1] =>
        destruct (IH (S i) st1 la ln) as (st' & Hl & Htp); [done..|simpl in *; lia|]
    end.
    rewrite Hl. exists st'. split; [done|]. rewrite Htp. simpl.
    by rewrite <- app_assoc.
Qed.

Lemma entries_of_length p : forall la ln,
  length la <= length ln -> length la <= length (entries_of arcChunks p la ln).
Proof using arcChunks_shape.
  intros la. revert p. induction la as [|a la IH]; intros p [|n ln] Hlen; simpl in *;
    [lia..|].
  destruct (decide (command a = "A")).
  - destruct (segmentToCubic n p) as [r p1].
    pose proof (arcChunks_nonempty arcChunks arcChunks_shape r) as Hne.
    pose proof (piece_entries_length p1 (arcChunks r)) as Hpl.
    destruct (piece_entries p1 (arcChunks r)) as [es p']. simpl in Hpl.
    rewrite length_app, Hpl. specialize (IH p' ln ltac:(lia)).
    destruct (arcChunks r); [done|]. simpl. lia.
  - simpl. specialize (IH (set_xy p n) ln ltac:(lia)). lia.
Qed.

Lemma loop_returns_entries fuel absolutePath st :
  loop fuel 0 (loop_init absolutePath (normalizePath absolutePath)) = Returned st ->
  transformedPath st =
    entries_of arcChunks paramsParser absolutePath (normalizePath absolutePath).
Proof using fixArc_splice arcChunks_shape segmentToCubic_stable normalizePath_length.
  intros Hl.
  set (entries := entries_of arcChunks paramsParser absolutePath
                    (normalizePath absolutePath)).
  destruct (loop_entries (fuel `max` length entries) 0
              (loop_init absolutePath (normalizePath absolutePath))
              absolutePath (normalizePath absolutePath))
    as (st' & Hl' & Htp);
    [done|done|by rewrite normalizePath_length|done
    |simpl; rewrite !drop_0; fold entries; lia|].
  rewrite (loop_fuel_mono fuel _ 0 _ st Hl) in Hl' by lia.
  injection Hl' as <-. simpl in Htp. by rewrite !drop_0 in Htp.
Qed.

Lemma loop_no_throw fuel e : forall i st, aligned st -> loop fuel i st <> Thrown e.
Proof using fixArc_splice arcChunks_shape segmentToCubic_stable.
  induction fuel as [|fuel IH]; intros i st Hal; simpl.
  - by case_decide.
  - case_decide as Hi; [|done].
    destruct (loop_body_aligned arcChunks fixArc_splice arcChunks_shape
                segmentToCubic_stable i st Hal Hi) as (st1 & Hb & Hal1 & _).
    rewrite Hb. simpl. by apply IH.
Qed.

Lemma select_matrix_Thrown transform e :
  select_matrix transform = Thrown e <->
  e = TypeError /\
  exists d, transform = Some (TrString d) /\ CSSMatrix_fromString d = None.
Proof.
  unfold select_matrix. destruct transform as [[d|m|t]|].
  - destruct (CSSMatrix_fromString d) eqn:Hd; split.
    + done.
    + intros (_ & d' & [= <-] & Hd'). congruence.
    + intros [= <-]. eauto.
    + by intros (-> & _).
  - split; [done|]. by intros (_ & d' & ? & _).
  - case_decide; (split; [done|]); by intros (_ & d' & ? & _).
  - split; [done|]. by intros (_ & d' & ? & _).
Qed.

(** *** Segment by segment *)











(** X5.  Whatever the transform, the path a call returns has at least as
    many segments as the absolute form of its input: the loop drops no
    segment, and an arc gives one segment or more. *)
Theorem transformPath_never_shorter fuel path transform absolutePath out :
  pathToAbsolute path = Some absolutePath ->
  transformPath fuel path transform = Returned out ->
  length absolutePath <= length out.
Proof using fixArc_splice arcChunks_shape segmentToCubic_stable normalizePath_length.
  intros Habs. unfold transformPath. rewrite Habs.
  destruct (select_matrix transform) as [[[[m|] o]|]| |]; simpl; try done.
  - destruct (isIdentity m); [by intros [= <-]|].
    intros (st & Hl & [= <-])%bind_Returned.
    rewrite project_all_length, (loop_returns_entries fuel absolutePath st Hl).
    apply entries_of_length. by rewrite normalizePath_length.
  - by intros [= <-].
Qed.

(** X3.  The loop and the projection throw nothing of their own: a call
    ends in an error exactly when [pathToAbsolute] cannot read the path or
    the transform is a string the [CSSMatrix] constructor rejects. *)
Theorem transformPath_only_input_errors fuel path transform :
  (exists e, transformPath fuel path transform = Thrown e) <->
  pathToAbsolute path = None \/
  exists d, transform = Some (TrString d) /\ CSSMatrix_fromString d = None.
Proof using fixArc_splice arcChunks_shape segmentToCubic_stable normalizePath_length.
  assert (Hloop : forall absolutePath m o e,
            loop fuel 0 (loop_init absolutePath (normalizePath absolutePath))
              ≫= (fun st => Returned (project_all m o (zero, zero) (transformedPath st)))
            <> Thrown e).
  { intros absolutePath m o e [Hl|(st & _ & ?)]%bind_Thrown; [|done].
    eapply loop_no_throw; [|exact Hl].
    exists absolutePath, (normalizePath absolutePath).
    by rewrite normalizePath_length. }
  assert (Hrej : (exists d, transform = Some (TrString d) /\ CSSMatrix_fromString d = None) ->
                 select_matrix transform = Thrown TypeError).
  { intros Hd. by apply select_matrix_Thrown. }
  unfold transformPath. destruct (pathToAbsolute path) as [absolutePath|].
  - destruct (select_matrix transform) as [[[[m|] o]|]|e0|] eqn:Hsel; simpl.
    + destruct (isIdentity m).
      * split; [by intros [e ?]|]. by intros [?|?%Hrej].
      * split; [by intros [e ?%Hloop]|]. by intros [?|?%Hrej].
    + by destruct (select_matrix_has_matrix transform o).
    + split; [by intros [e ?]|]. by intros [?|?%Hrej].
    + apply select_matrix_Thrown in Hsel as (-> & Hd).
      split; [by right|]. intros _. by exists TypeError.
    + by destruct (select_matrix_fuel transform).
  - split; [by left|]. intros _. by exists TypeError.
Qed.

(** X6.  A segment without values, as a close is, leaves NaN in all four
    coordinates of [params]; an arc in the next slot is then converted by
    [segmentToCubic] from those, and its slot and the ones after it hold the
    pieces of that conversion. *)
Theorem arc_after_close i st la ln z zn a an :
  absolutePath st = Some <$> la -> normalizedPath st = Some <$> ln ->
  length la = length ln ->
  la !! i = Some z -> ln !! i = Some zn -> command z <> "A" -> values zn = [] ->
  la !! S i = Some a -> ln !! S i = Some an -> command a = "A" ->
  exists st1 st2,
    loop_body i st = Returned st1 /\ loop_body (S i) st1 = Returned st2 /\
    params st1 = params_of_close (params st) /\
    absolutePath st2 =
      Some <$> (take (S i) la ++
                arcChunks (fst (segmentToCubic an (params_of_close (params st)))) ++
                drop (S (S i)) la).
Proof using fixArc_splice arcChunks_shape segmentToCubic_stable.
  intros Ea En Hlen Hz Hzn HZ Hv Ha Han HA.
  pose proof (loop_body_plain i st la ln z zn Ea En Hz Hzn HZ) as Hb1.
  rewrite (set_xy_close _ zn Hv) in Hb1.
  destruct (segmentToCubic an (params_of_close (params st))) as [r p1] eqn:Hr.
  pose proof (arcChunks_nonempty arcChunks arcChunks_shape r) as Hne.
  destruct (arcChunks r) as [|piece rest] eqn:Hc; [done|].
  match type of Hb1 with _ = Returned ?st' => set (st1 := st') in * end.
  destruct (loop_body_arc (S i) st1 la ln a an r p1 piece rest) as [cmds Hb]; try done.
  exists st1. eexists. split; [exact Hb1|]. split; [exact Hb|]. split; [done|].
  simpl. by rewrite Hc.
Qed.

End ClosedForm.

End Entries.

(** * Where the code leaves the specification *)

Section Divergences.
#[local] Existing Instances Sample.exact Sample.chords Sample.collaborators Sample.on_store.

(** C3.  A line after a close.  The path M0 0 L10 10 Z L5 10 moved by
    (10, 20) comes back with H 15 as its last segment.  The projected end
    point of that line is (15, 30); the running point of the returned path
    after its close is the start (10, 20) of the sub-path, whose y is not
    30: the callback compared with the end (20, 30) of the line before the
    close, which the close had left in [(x, y)]. *)
Theorem transformPath_line_after_close_diverges :
  transformPath 4 (PathString "M0 0L10 10ZL5 10") (Some (TrObject shift)) =
    Returned [Segment "M" [q 10; q 20]; Segment "L" [q 20; q 30]; Segment "Z" [];
              Segment "H" [q 15]] /\
  projection2d shift_matrix (q 5, q 10) (zero, zero, zero) = (q 15, q 30) /\
  cursor_after [Segment "M" [q 10; q 20]; Segment "L" [q 20; q 30]; Segment "Z" []] =
    {| cx := q 10; cy := q 20; mx := q 10; my := q 20 |} /\
  strict_eq (q 20) (q 30) = false /\
  running_point shift_matrix (zero, zero, zero) (zero, zero)
    (zip_with entry_of
       [Segment "M" [q 0; q 0]; Segment "L" [q 10; q 10]; Segment "Z" [];
        Segment "L" [q 5; q 10]]
       (normalizePath
          [Segment "M" [q 0; q 0]; Segment "L" [q 10; q 10]; Segment "Z" [];
           Segment "L" [q 5; q 10]])) 3 = (q 20, q 30).
Proof. repeat split; reflexivity. Qed.

(** C4.  A path array that is absolute already.  [pathToAbsolute] hands
    back a spread of it, lines 138-139 write the projected coordinates into
    the segments of that array, and these are the caller's: after the call
    the caller's first segment M 1 2 reads M 11 22.  The array itself and
    its line and arc segments stay as they were. *)
Theorem transformPath_overwrites_caller_segment :
  let h' := snd (transformPath_st 9 1%positive (Some (TrObject shift)) caller_store) in
  segs caller_store !! 1%positive = Some (Segment "M" [q 1; q 2]) /\
  segs h' !! 1%positive = Some (Segment "M" [q 11; q 22]) /\
  arrays h' !! 1%positive = arrays caller_store !! 1%positive /\
  segs h' !! 2%positive = segs caller_store !! 2%positive /\
  segs h' !! 3%positive = segs caller_store !! 3%positive.
Proof. repeat split; reflexivity. Qed.

End Divergences.

(** * The further theorems at concrete inputs *)

Section MoreWitnesses.
#[local] Existing Instances Sample.exact Sample.chords Sample.collaborators Sample.on_store.

Ltac no_arcs := repeat (constructor; [by simpl|]); constructor.


Lemma transformPath_arc_free_witness :
  exists out,
    transformPath 4 (PathString "M0 0H10V10L3 4") (Some (TrObject shift)) = Returned out /\
    length out = 4 /\
    forall k a,
      [Segment "M" [q 0; q 0]; Segment "H" [q 10]; Segment "V" [q 10];
       Segment "L" [q 3; q 4]] !! k = Some a ->
      exists seg, out !! k = Some seg /\
        if is_line_command (command a)
        then (command seg = "L" /\ length (values seg) = 2) \/
             ((command seg = "H" \/ command seg = "V") /\ length (values seg) = 1)
        else command seg = command a /\
             length (values seg) = projected_count (length (values a)).
Proof.
  apply (transformPath_arc_free 4 (PathString "M0 0H10V10L3 4") (Some (TrObject shift))
           [Segment "M" [q 0; q 0]; Segment "H" [q 10]; Segment "V" [q 10];
            Segment "L" [q 3; q 4]]
           shift_matrix (zero, zero, zero));
    [reflexivity|reflexivity|reflexivity|no_arcs
    |apply Nat.leb_le; reflexivity|apply Nat.leb_le; reflexivity].
Defined.

Lemma transformPath_only_input_errors_witness :
  (exists e, transformPath 5 (PathString "M0 0X") None = Thrown e) <->
  pathToAbsolute (PathString "M0 0X") = None \/
  exists d, None = Some (TrString d) /\ CSSMatrix_fromString d = None.
Proof.
  apply (transformPath_only_input_errors Sample.pieces sample_fixArc_splice
           sample_arcChunks_shape sample_segmentToCubic_stable sample_normalizePath_length
           5 (PathString "M0 0X") None).
Defined.


Lemma transformPath_short_normalized_witness :
  @transformPath _ losing 2 (PathString "M0 0L1 1") (Some (TrObject shift))
  = Thrown TypeError.
Proof.
  apply (@transformPath_short_normalized _ losing 2 (PathString "M0 0L1 1")
           (Some (TrObject shift))
           [Segment "M" [q 0; q 0]; Segment "L" [q 1; q 1]]
           shift_matrix (zero, zero, zero));
    [reflexivity|reflexivity|reflexivity|apply Nat.ltb_lt; reflexivity
    |change (Forall (fun a => command a <> "A") [Segment "M" [q 0; q 0]]); no_arcs
    |apply Nat.ltb_lt; reflexivity].
Defined.

Lemma transformPath_never_shorter_witness :
  length (toAbsolute sample_path) <=
  length (project_all shift_matrix (zero, zero, zero) (zero, zero)
            (entries_of Sample.pieces paramsParser (toAbsolute sample_path)
               (normalizePath (toAbsolute sample_path)))).
Proof.
  apply (transformPath_never_shorter Sample.pieces sample_fixArc_splice
           sample_arcChunks_shape sample_segmentToCubic_stable sample_normalizePath_length
           9 (PathSegments sample_path) (Some (TrObject shift)));
    reflexivity.
Defined.

Lemma arc_after_close_witness :
  let la := [Segment "M" [q 0; q 0]; Segment "Z" [];
             Segment "A" [q 1; q 1; q 0; q 1; q 0; q 8; q 9]] in
  let st := loop_init la (normalizePath la) in
  exists st1 st2,
    loop_body 1 st = Returned st1 /\ loop_body 2 st1 = Returned st2 /\
    params st1 = params_of_close (params st) /\
    absolutePath st2 =
      Some <$> (take 2 la ++
                Sample.pieces
                  (fst (segmentToCubic (Segment "A" [q 1; q 1; q 0; q 1; q 0; q 8; q 9])
                          (params_of_close (params st)))) ++
                drop 3 la).
Proof.
  apply (arc_after_close Sample.pieces sample_fixArc_splice sample_arcChunks_shape
           sample_segmentToCubic_stable 1
           (loop_init [Segment "M" [q 0; q 0]; Segment "Z" [];
                       Segment "A" [q 1; q 1; q 0; q 1; q 0; q 8; q 9]]
              (normalizePath [Segment "M" [q 0; q 0]; Segment "Z" [];
                              Segment "A" [q 1; q 1; q 0; q 1; q 0; q 8; q 9]]))
           [Segment "M" [q 0; q 0]; Segment "Z" [];
            Segment "A" [q 1; q 1; q 0; q 1; q 0; q 8; q 9]]
           (normalizePath [Segment "M" [q 0; q 0]; Segment "Z" [];
                           Segment "A" [q 1; q 1; q 0; q 1; q 0; q 8; q 9]])
           (Segment "Z" []) (Segment "Z" [])
           (Segment "A" [q 1; q 1; q 0; q 1; q 0; q 8; q 9])
           (Segment "A" [q 1; q 1; q 0; q 1; q 0; q 8; q 9]));
    first [reflexivity | discriminate].
Defined.


End MoreWitnesses.
